(** * STM32 build analyzer: the build-folder resolver

    A shallow embedding of [src/services/BuildFolderResolver.ts] and the
    properties of its artifact discovery: the configured fast path, the
    recursive directory walk with its visited set, stem pairing of
    [.elf] and [.map] files, and the quick-pick selection.

    The resolver talks to its host through a handful of calls: the
    configuration getters, [fs.promises.access], [fs.existsSync],
    [fs.readdirSync], [path.join], the lower-casing of strings, the
    workspace folders and two kinds of notifications.  Each of them is
    a field of the record [Env] below and every call that matters is
    logged in a trace of [Event]s, so that statements such as "no
    directory is listed" can be made about the code.  Console diagnostics guarded by [this.debug] do not influence
    control flow and are left out. *)

From stdpp Require Import base option list gmap strings sets.
From Stdlib Require Import Ascii String.

Local Open Scope string_scope.

(** ** JavaScript string helpers *)

Module Js.

(** [s.endsWith(suffix)]: a case-sensitive comparison of the last
    [length suffix] characters. *)
Definition endsWith (s suffix : string) : bool :=
  let n := String.length s in
  let m := String.length suffix in
  (m <=? n)%nat && String.eqb (String.substring (n - m) m s) suffix.

(** Truthiness of a value of type [string | undefined]: [undefined]
    and the empty string are falsy. *)
Definition truthy (v : option string) : bool :=
  match v with
  | Some s => negb (String.eqb s "")
  | None => false
  end.

(** [path.basename(name, ext)] on a bare file name (an entry of a
    directory listing has no separator in it): the extension is cut
    off when the name ends with it, otherwise the name is returned
    whole. *)
Definition basename (name ext : string) : string :=
  if endsWith name ext
  then String.substring 0 (String.length name - String.length ext) name
  else name.

(** [set.add(x)] on a [Set<string>], which keeps insertion order. *)
Definition set_add (x : string) (s : list string) : list string :=
  if bool_decide (x ∈ s) then s else s ++ [x].

End Js.

(** ** The host environment *)

(** The type reported by a [fs.Dirent]; exactly one of its [isX()]
    predicates holds. *)
Inductive DirentKind :=
| KFile | KDirectory | KSymbolicLink | KFIFO | KSocket
| KBlockDevice | KCharacterDevice.

Record Dirent := { name : string; kind : DirentKind }.

Definition isDirectory (d : Dirent) : bool :=
  match kind d with KDirectory => true | _ => false end.

(** The items offered to [showQuickPick]. *)
Record Item := {
  label : string;
  detail : string;
  item_elf : string;
  item_map : string
}.

Record BuildPaths := {
  map : string;
  elf : string;
  toolchainPath : option string
}.

Record Env := {
  (** [stm32BuildAnalyzer.mapFilePath] and [.elfFilePath] *)
  cfg_mapFilePath : option string;
  cfg_elfFilePath : option string;
  (** [stm32BuildAnalyzerEnhanced.toolchainPath] *)
  cfg_toolchainPath : option string;
  (** [vscode.workspace.workspaceFolders], as the list of [uri.fsPath] *)
  workspaceFolders : option (list string);
  (** [process.platform] *)
  platform : string;
  (** [String.prototype.toLowerCase] of the host *)
  toLowerCase : string → string;
  (** [path.join] of the host *)
  path_join : string → string → string;
  (** [vscode.workspace.asRelativePath] *)
  asRelativePath : string → string;
  (** the directories [fs.readdirSync] can list, with their entries;
      on every other path it throws *)
  fs_dirs : gmap string (list Dirent);
  (** the paths on which [fs.promises.access(p, R_OK)] resolves *)
  fs_readable : string → bool;
  (** [fs.existsSync] *)
  fs_existsSync : string → bool;
  (** the answer of the user to [showQuickPick]; [None] is a dismissed
      prompt *)
  quickPick : list Item → option Item
}.

(** What the resolver does to its host, in order. *)
Inductive Event :=
| EvAccess (p : string)
| EvExistsSync (p : string)
| EvReaddir (p : string)
| EvQuickPick (items : list Item)
| EvInformationMessage (msg : string)
| EvWarningMessage (msg : string).

(** The ways [resolve] can throw: its own four errors and the exception
    of a [fs.readdirSync] outside the [try] of the walk, passed on as it
    comes. *)
Inductive ResolveError :=
| NoWorkspaceFolderOpen
| NoBuildFolders
| NoMatchingFiles
| SelectionCancelled
| ReaddirFailed (p : string).

(** The message of the [Error] the resolver builds itself. *)
Definition error_message (e : ResolveError) : option string :=
  match e with
  | NoWorkspaceFolderOpen => Some "No workspace folder open"
  | NoBuildFolders =>
    Some "No build folders containing both .map and .elf found"
  | NoMatchingFiles => Some "No matching .elf and .map files found"
  | SelectionCancelled => Some "Selection cancelled"
  | ReaddirFailed _ => None
  end.

(** ** The walk of [findBuildFolders] *)

(** The two sets of [findBuildFolders] and the trace of host calls. *)
Record WalkState := {
  visited : gset string;
  found : list string;
  io : list Event
}.

Definition init_state : WalkState :=
  {| visited := ∅; found := []; io := [] |}.

Definition mark_visited (key : string) (st : WalkState) : WalkState :=
  {| visited := {[key]} ∪ visited st; found := found st; io := io st |}.

Definition emit (e : Event) (st : WalkState) : WalkState :=
  {| visited := visited st; found := found st; io := io st ++ [e] |}.

Definition add_found (dir : string) (st : WalkState) : WalkState :=
  {| visited := visited st; found := Js.set_add dir (found st); io := io st |}.

Section Walk.
Context (env : Env).

Definition isCaseInsensitive : bool :=
  String.eqb (platform env) "win32" || String.eqb (platform env) "darwin".

Definition dir_key (dir : string) : string :=
  if isCaseInsensitive then toLowerCase env dir else dir.

(** The body of the [for] loop over the entries of [dir]; [rec] is the
    recursive call. The loop carries the state and the two flags. *)
Fixpoint walk_entries (rec : string → WalkState → option WalkState)
    (dir : string) (entries : list Dirent)
    (acc : WalkState * bool * bool) : option (WalkState * bool * bool) :=
  match entries with
  | [] => Some acc
  | d :: rest =>
    let '(st, hasMap, hasElf) := acc in
    let full := path_join env dir (name d) in
    if isDirectory d then
      match rec full st with
      | Some st' => walk_entries rec dir rest (st', hasMap, hasElf)
      | None => None
      end
    else if Js.endsWith (name d) ".map" then
      walk_entries rec dir rest (st, true, hasElf)
    else if Js.endsWith (name d) ".elf" then
      walk_entries rec dir rest (st, hasMap, true)
    else walk_entries rec dir rest (st, hasMap, hasElf)
  end.

(** [walk(dir)]. The recursion of the source is bounded here by
    [fuel], the depth still allowed; [None] means the bound was hit.
    A listing that throws is caught and leaves the sets as they are. *)
Fixpoint walk (fuel : nat) (dir : string) (st : WalkState)
    : option WalkState :=
  match fuel with
  | O => None
  | S fuel' =>
    let key := dir_key dir in
    if bool_decide (key ∈ visited st) then Some st
    else
      let st1 := emit (EvReaddir dir) (mark_visited key st) in
      match fs_dirs env !! dir with
      | None => Some st1
      | Some entries =>
        match walk_entries (walk fuel') dir entries (st1, false, false) with
        | Some (st2, hasMap, hasElf) =>
          Some (if hasMap && hasElf then add_found dir st2 else st2)
        | None => None
        end
      end
  end.

End Walk.

(** ** The resolver *)

(** Host calls outside the walk are logged by a writer monad whose
    computations either return or throw. *)
Inductive Outcome (A : Type) :=
| Ok (a : A)
| Throw (e : ResolveError).
Arguments Ok {A} a.
Arguments Throw {A} e.

Definition M (A : Type) : Type := list Event * Outcome A.

Definition ret {A} (a : A) : M A := ([], Ok a).
Definition throw {A} (e : ResolveError) : M A := ([], Throw e).
Definition tell (e : Event) : M unit := ([e], Ok tt).
Definition bind {A B} (m : M A) (k : A → M B) : M B :=
  match m with
  | (t, Ok a) => let '(t', r) := k a in ((t ++ t')%list, r)
  | (t, Throw e) => (t, Throw e)
  end.

Declare Scope resolver_scope.
Delimit Scope resolver_scope with M.
Notation "'let*' x ':=' m 'in' k" := (bind m (fun x => k))
  (at level 10, x name, m at level 100, k at level 200) : resolver_scope.
Notation "'let*' '_' ':=' m 'in' k" := (bind m (fun _ => k))
  (at level 10, m at level 100, k at level 200) : resolver_scope.

Definition common_names : list string :=
  ["build"; "Build"; "Release"; "Debug"; "out"; "output"].

Section Resolver.
Context (env : Env).

(** [this.exists(filePath)]: never throws. *)
Definition exists_ (filePath : string) : M bool :=
  (let* _ := tell (EvAccess filePath) in ret (fs_readable env filePath))%M.

(** A bound on the recursion depth of the walk that is never reached
    (see [walk_enough_fuel]). *)
Definition walk_fuel : nat := S (size (fs_dirs env)).

(** The [for (const c of common)] loop. *)
Fixpoint walk_common (fuel : nat) (common : list string) (st : WalkState)
    : option WalkState :=
  match common with
  | [] => Some st
  | c :: rest =>
    let st1 := emit (EvExistsSync c) st in
    if fs_existsSync env c then
      match walk env fuel c st1 with
      | Some st2 => walk_common fuel rest st2
      | None => None
      end
    else walk_common fuel rest st1
  end.

Definition common_dirs (root : string) : list string :=
  path_join env root <$> common_names.

(** [findBuildFolders(root)], as the final state of its two sets and
    of the trace; the result of the source is [found] of this state. *)
Definition findBuildFolders_state (fuel : nat) (root : string)
    : option WalkState :=
  match walk_common fuel (common_dirs root) init_state with
  | Some st =>
    if (List.length (found st) =? 0)%nat then walk env fuel root st else Some st
  | None => None
  end.

Definition findBuildFolders (root : string) : option WalkState :=
  findBuildFolders_state walk_fuel root.

(** [fs.readdirSync(folder)] without file types, outside any [try]. *)
Definition readdirSync (folder : string) : M (list string) :=
  (let* _ := tell (EvReaddir folder) in
   match fs_dirs env !! folder with
   | Some entries => ret (name <$> entries)
   | None => throw (ReaddirFailed folder)
   end)%M.

(** The inner loop of the pairing: one item per [.elf] name for which
    the listing has the [.map] name of the same stem. *)
Fixpoint pair_elfs (folder : string) (maps elfs : list string) : list Item :=
  match elfs with
  | [] => []
  | e :: rest =>
    let basename := Js.basename e ".elf" in
    let m := List.find (fun m => String.eqb m (basename ++ ".map")) maps in
    if Js.truthy m then
      match m with
      | Some m' =>
        {| label := "$(file-binary) " ++ basename;
           detail := asRelativePath env folder;
           item_elf := path_join env folder e;
           item_map := path_join env folder m' |}
        :: pair_elfs folder maps rest
      | None => pair_elfs folder maps rest
      end
    else pair_elfs folder maps rest
  end.

Definition pair_files (folder : string) (files : list string) : list Item :=
  let elfs := List.filter (fun f => Js.endsWith f ".elf") files in
  let maps := List.filter (fun f => Js.endsWith f ".map") files in
  pair_elfs folder maps elfs.

(** The outer loop [for (const folder of folders)]. *)
Fixpoint collect_items (folders : list string) (items : list Item)
    : M (list Item) :=
  match folders with
  | [] => ret items
  | folder :: rest =>
    (let* files := readdirSync folder in
     collect_items rest (items ++ pair_files folder files)%list)%M
  end.

(** [getToolchainPath()] *)
Definition getToolchainPath : M (option string) :=
  match cfg_toolchainPath env with
  | Some toolchain =>
    if Js.truthy (Some toolchain) then
      (let* ok := exists_ toolchain in
       if ok : bool then
         let* _ := tell (EvInformationMessage
                 ("STM32 Build Analyzer: Using toolchain from " ++ toolchain)) in
         ret (Some toolchain)
       else
         let* _ := tell (EvWarningMessage
                 ("STM32 Build Analyzer: toolchainPath not found: " ++ toolchain)) in
         ret None)%M
    else ret None
  | None => ret None
  end.

(** The condition of the fast path, with the short circuits of [&&]:
    the files are probed only when both settings are truthy, the
    second only when the first probe passed. *)
Definition custom_paths : M (option (string * string)) :=
  match cfg_mapFilePath env, cfg_elfFilePath env with
  | Some customMap, Some customElf =>
    if Js.truthy (Some customMap) && Js.truthy (Some customElf) then
      (let* okMap := exists_ customMap in
       if okMap : bool then
         let* okElf := exists_ customElf in
         ret (if okElf : bool then Some (customMap, customElf) else None)
       else ret None)%M
    else ret None
  | _, _ => ret None
  end.

(** The selection among the collected items (which are not empty). *)
Definition select (first : Item) (items : list Item) : M Item :=
  if (1 <? List.length items)%nat then
    (let* _ := tell (EvQuickPick items) in
     match quickPick env items with
     | Some pick => ret pick
     | None => throw SelectionCancelled
     end)%M
  else ret first.

Definition finish (selectedMap selectedElf : string) : M BuildPaths :=
  (let* tc := getToolchainPath in
   ret {| map := selectedMap; elf := selectedElf; toolchainPath := tc |})%M.

(** The search of [resolve()], once the folders are known. *)
Definition resolve_search (st : WalkState) : M BuildPaths :=
  let folders := found st in
  (let* _ := if (List.length folders =? 0)%nat
             then throw NoBuildFolders else ret tt in
  let* items := collect_items folders [] in
  match items with
  | [] => throw NoMatchingFiles
  | first :: _ =>
    let* selectedItem := select first items in
    finish (item_map selectedItem) (item_elf selectedItem)
  end)%M.

(** [resolve()]. [None] stands for a walk that hit its depth bound,
    which never happens ([resolve_total]). *)
Definition resolve : option (M BuildPaths) :=
  match custom_paths with
  | (t, Ok (Some (customMap, customElf))) =>
    Some (bind (t, Ok tt) (fun _ => finish customMap customElf))
  | (t, Ok None) =>
    match workspaceFolders env with
    | Some (root :: _) =>
      match findBuildFolders root with
      | Some st =>
        Some (bind ((t ++ io st)%list, Ok tt) (fun _ => resolve_search st))
      | None => None
      end
    | _ => Some (t, Throw NoWorkspaceFolderOpen)
    end
  | (t, Throw e) => Some (t, Throw e)
  end.

End Resolver.

(** ** Sample hosts, used to run the model on concrete inputs *)

Module Sample.

Definition file (n : string) : Dirent := {| name := n; kind := KFile |}.
Definition dir (n : string) : Dirent := {| name := n; kind := KDirectory |}.
Definition symlink (n : string) : Dirent :=
  {| name := n; kind := KSymbolicLink |}.

Definition posix_join (a b : string) : string := a ++ "/" ++ b.

Definition lower_ascii (c : ascii) : ascii :=
  let n := nat_of_ascii c in
  if ((65 <=? n) && (n <=? 90))%nat then ascii_of_nat (n + 32) else c.

(** The lower-casing of the sample hosts, whose paths are ASCII: the
    letters [A] to [Z] are lowered, every other byte is kept. *)
Fixpoint ascii_toLowerCase (s : string) : string :=
  match s with
  | EmptyString => EmptyString
  | String c s' => String (lower_ascii c) (ascii_toLowerCase s')
  end.

(** A host with a workspace [/w], no settings and the given
    directories; everything that is listed exists. *)
Definition host (dirs : gmap string (list Dirent)) : Env :=
  {| cfg_mapFilePath := None;
     cfg_elfFilePath := None;
     cfg_toolchainPath := None;
     workspaceFolders := Some ["/w"];
     platform := "linux";
     toLowerCase := ascii_toLowerCase;
     path_join := posix_join;
     asRelativePath := fun p => p;
     fs_dirs := dirs;
     fs_readable := fun _ => false;
     fs_existsSync := fun p => bool_decide (is_Some (dirs !! p));
     quickPick := fun _ => None |}.

Definition with_settings (m e t : option string) (readable : list string)
    (env : Env) : Env :=
  {| cfg_mapFilePath := m;
     cfg_elfFilePath := e;
     cfg_toolchainPath := t;
     workspaceFolders := workspaceFolders env;
     platform := platform env;
     toLowerCase := toLowerCase env;
     path_join := path_join env;
     asRelativePath := asRelativePath env;
     fs_dirs := fs_dirs env;
     fs_readable := fun p => bool_decide (p ∈ readable);
     fs_existsSync := fs_existsSync env;
     quickPick := quickPick env |}.

Definition with_user (answer : list Item → option Item) (env : Env) : Env :=
  {| cfg_mapFilePath := cfg_mapFilePath env;
     cfg_elfFilePath := cfg_elfFilePath env;
     cfg_toolchainPath := cfg_toolchainPath env;
     workspaceFolders := workspaceFolders env;
     platform := platform env;
     toLowerCase := toLowerCase env;
     path_join := path_join env;
     asRelativePath := asRelativePath env;
     fs_dirs := fs_dirs env;
     fs_readable := fs_readable env;
     fs_existsSync := fs_existsSync env;
     quickPick := answer |}.

Definition with_platform (p : string) (env : Env) : Env :=
  {| cfg_mapFilePath := cfg_mapFilePath env;
     cfg_elfFilePath := cfg_elfFilePath env;
     cfg_toolchainPath := cfg_toolchainPath env;
     workspaceFolders := workspaceFolders env;
     platform := p;
     toLowerCase := toLowerCase env;
     path_join := path_join env;
     asRelativePath := asRelativePath env;
     fs_dirs := fs_dirs env;
     fs_readable := fs_readable env;
     fs_existsSync := fs_existsSync env;
     quickPick := quickPick env |}.

(** One build folder with two targets below [/w/build]. *)
Definition two_targets : gmap string (list Dirent) :=
  {[ "/w" := [dir "build"; dir "src"; file "x.elf"; file "x.map"];
     "/w/build" := [dir "Debug"; file "app.elf"; file "other.map"];
     "/w/build/Debug" :=
       [file "app.elf"; file "app.map"; file "b.elf"; file "b.map"];
     "/w/src" := [file "main.c"] ]}.

(** A single pair in [/w/out]. *)
Definition one_target : gmap string (list Dirent) :=
  {[ "/w" := [dir "out"; file "README.md"];
     "/w/out" := [file "app.elf"; file "app.map"; file "other.map"] ]}.

(** No artifact anywhere. *)
Definition sources_only : gmap string (list Dirent) :=
  {[ "/w" := [dir "src"; file "README.md"];
     "/w/src" := [file "main.c"; file "main.map.txt"] ]}.

(** A binary and a map that do not belong together. *)
Definition mismatched : gmap string (list Dirent) :=
  {[ "/w" := [dir "Release"];
     "/w/Release" := [file "boot.elf"; file "app.map"] ]}.

(** The binary next to a directory that holds its map. *)
Definition split_pair : gmap string (list Dirent) :=
  {[ "/w" := [dir "build"];
     "/w/build" := [file "app.elf"; dir "sub"];
     "/w/build/sub" := [file "app.map"] ]}.

(** [/w/build] holds a pair and a directory [locked] that cannot be
    listed; [/w/build/ok] holds another pair. *)
Definition one_locked : gmap string (list Dirent) :=
  {[ "/w" := [dir "build"];
     "/w/build" := [dir "locked"; dir "ok"; file "top.elf"; file "top.map"];
     "/w/build/ok" := [file "app.elf"; file "app.map"] ]}.

(** Links only: two links named like artifacts and a link [link] to a
    directory that holds a pair (listing the path of the link follows
    it). *)
Definition linked : gmap string (list Dirent) :=
  {[ "/w" := [dir "build"];
     "/w/build" := [symlink "link"; symlink "fw.elf"; symlink "fw.map"];
     "/w/build/link" := [file "app.elf"; file "app.map"] ]}.

(** A volume that ignores case: [build] and [Build] name one folder. *)
Definition same_folder_twice : gmap string (list Dirent) :=
  {[ "/w" := [dir "build"];
     "/w/build" := [file "app.elf"; file "app.map"];
     "/w/Build" := [file "app.elf"; file "app.map"] ]}.

(** A binary next to a directory that is named like its map, and the
    map of another target. *)
Definition map_directory : gmap string (list Dirent) :=
  {[ "/w" := [dir "build"];
     "/w/build" := [file "app.elf"; dir "app.map"; file "x.map"];
     "/w/build/app.map" := [] ]}.

(** [/w/build] is a symbolic link to the directory [/w/Debug]: the
    root lists it as a link, and listing the path of the link lists
    the directory. *)
Definition linked_twin : gmap string (list Dirent) :=
  {[ "/w" := [symlink "build"; dir "Debug"];
     "/w/build" := [file "app.elf"; file "app.map"];
     "/w/Debug" := [file "app.elf"; file "app.map"] ]}.

(** The only entry of the root is a symbolic link [build] to a
    directory outside the workspace that holds a pair. *)
Definition linked_root_entry : gmap string (list Dirent) :=
  {[ "/w" := [symlink "build"];
     "/w/build" := [file "app.elf"; file "app.map"] ]}.

(** The links of [linked_twin]. *)
Definition twin_links : gmap string string :=
  {[ "/w/build" := "/w/Debug" ]}.

Definition cancelling : Env := with_user (fun _ => None) (host two_targets).

End Sample.

(** From here on [++] appends lists and the order is that of [nat]. *)
Local Open Scope list_scope.
Local Open Scope nat_scope.

(** ** Notions used to state the properties *)

(** An entry that is not a directory and carries the extension. *)
Definition is_file_with (ext : string) (d : Dirent) : bool :=
  negb (isDirectory d) && Js.endsWith (name d) ext.

Definition has_file_with (ext : string) (entries : list Dirent) : bool :=
  existsb (is_file_with ext) entries.

(** The listing of a directory holds both kinds of files. *)
Definition qualifies (entries : list Dirent) : bool :=
  has_file_with ".map" entries && has_file_with ".elf" entries.

(** The same test on a path; a path that cannot be listed fails it. *)
Definition dir_qualifies (env : Env) (d : string) : bool :=
  match fs_dirs env !! d with
  | Some entries => qualifies entries
  | None => false
  end.

(** The directories the walk has listed (or tried to), in order. *)
Definition listed (t : list Event) : list string :=
  omap (fun e => match e with EvReaddir p => Some p | _ => None end) t.

(** [p] is [start] or lies below it through entries whose type is a
    real directory. *)
Inductive reaches (env : Env) (start : string) : string → Prop :=
| reaches_here : reaches env start start
| reaches_step d e entries :
    reaches env start d →
    fs_dirs env !! d = Some entries →
    e ∈ entries →
    isDirectory e = true →
    reaches env start (path_join env d (name e)).

(** The effect of a traversal that listed the directories [new], in
    this order, starting in state [st]. *)
Record trav (env : Env) (st st' : WalkState) (new : list string)
    : Prop := {
  trav_io : io st' = (io st ++ (EvReaddir <$> new))%list;
  trav_visited : visited st' = list_to_set (dir_key env <$> new) ∪ visited st;
  trav_fresh : ∀ p, p ∈ new → dir_key env p ∉ visited st;
  trav_nodup : NoDup (dir_key env <$> new);
  trav_found : ∀ d, d ∈ found st' ↔
                 d ∈ found st ∨ (d ∈ new ∧ dir_qualifies env d = true);
  trav_found_nodup : NoDup (found st) → NoDup (found st')
}.

(** The listable directories whose key is not visited yet: each
    nested call of [walk] that lists something removes one. *)
Definition unlisted (env : Env) (st : WalkState) : gset string :=
  filter (fun p => dir_key env p ∉ visited st) (dom (fs_dirs env)).

(** The paths probed with [fs.existsSync], in order. *)
Definition probed (t : list Event) : list string :=
  omap (fun e => match e with EvExistsSync p => Some p | _ => None end) t.

(** The candidate lists shown to the user, in order. *)
Definition prompts (t : list Event) : list (list Item) :=
  omap (fun e => match e with EvQuickPick l => Some l | _ => None end) t.

(** The state of the two sets in terms of what was listed so far,
    from the directories [starts] on. *)
Record scanned (env : Env) (starts : list string) (st : WalkState)
    : Prop := {
  sc_visited : visited st = list_to_set (dir_key env <$> listed (io st));
  sc_nodup : NoDup (dir_key env <$> listed (io st));
  sc_found : ∀ d, d ∈ found st ↔
               d ∈ listed (io st) ∧ dir_qualifies env d = true;
  sc_found_nodup : NoDup (found st);
  sc_prompts : prompts (io st) = [];
  sc_reach : Forall (fun p => ∃ s, s ∈ starts ∧ reaches env s p)
               (listed (io st))
}.

(** The condition of the fast path as one boolean. *)
Definition fast_path (env : Env) : bool :=
  match cfg_mapFilePath env, cfg_elfFilePath env with
  | Some customMap, Some customElf =>
    Js.truthy (Some customMap) && Js.truthy (Some customElf)
    && fs_readable env customMap && fs_readable env customElf
  | _, _ => false
  end.

(** A trace of probes of single files and of notifications: no
    directory is listed, nothing is looked up in the workspace and
    nobody is asked. *)
Definition quiet (t : list Event) : Prop :=
  listed t = [] ∧ probed t = [] ∧ prompts t = [].

(** The stem of a binary: its name without [.elf]. *)
Definition stem (binary : string) : string := Js.basename binary ".elf".

(** The candidate made of a binary and of the map of the same stem. *)
Definition candidate (env : Env) (folder binary : string) : Item :=
  {| label := ("$(file-binary) " ++ stem binary)%string;
     detail := asRelativePath env folder;
     item_elf := path_join env folder binary;
     item_map := path_join env folder (stem binary ++ ".map")%string |}.

(** A name is a binary with a map next to it: it ends in [.elf] and the
    listing has the name made of its stem and [.map]. *)
Definition is_paired (files : list string) (f : string) : bool :=
  Js.endsWith f ".elf" && bool_decide ((stem f ++ ".map")%string ∈ files).

(** The pairing of [resolve] in closed form. It goes by the names of
    the listing, whatever the type of the entries, as [fs.readdirSync]
    is called there without file types: each name ending in [.elf]
    whose stem with [.map] is also a name of the listing gives one
    candidate, and nothing else does. *)
Definition paired_by_name (env : Env) (folder : string) : list Item :=
  match fs_dirs env !! folder with
  | Some entries =>
    candidate env folder
      <$> List.filter (is_paired (name <$> entries)) (name <$> entries)
  | None => []
  end.

(** The candidates collected from the folders of a finished walk. *)
Definition candidates (env : Env) (st : WalkState) : list Item :=
  List.concat (paired_by_name env <$> found st).

(** The listing of a directory has two names [s.elf] and [s.map] of
    one stem, whatever the type of the two entries. *)
Definition has_name_pair (env : Env) (d : string) : Prop :=
  ∃ entries s, fs_dirs env !! d = Some entries ∧
    (s ++ ".elf")%string ∈ name <$> entries ∧
    (s ++ ".map")%string ∈ name <$> entries.

(** The names of the files of a listing: of its entries that are not
    directories, which is how the walk tells the two apart. *)
Definition file_names (entries : list Dirent) : list string :=
  name <$> List.filter (fun e => negb (isDirectory e)) entries.

(** Pairing as the specification words it: list the files of the
    directory; each binary file whose stem is also the stem of a map
    file gives one candidate, and nothing else does. *)
Definition spec_pair_files (env : Env) (folder : string) : list Item :=
  match fs_dirs env !! folder with
  | Some entries =>
    candidate env folder
      <$> List.filter (is_paired (file_names entries)) (file_names entries)
  | None => []
  end.

(** A directory holds a binary file and a map file of one stem. *)
Definition has_file_pair (env : Env) (d : string) : Prop :=
  ∃ entries s, fs_dirs env !! d = Some entries ∧
    (s ++ ".elf")%string ∈ file_names entries ∧
    (s ++ ".map")%string ∈ file_names entries.

(** No directory of the listing is named like an artifact. *)
Definition artifacts_are_files (entries : list Dirent) : Prop :=
  ∀ e, e ∈ entries → isDirectory e = true →
    Js.endsWith (name e) ".elf" = false ∧ Js.endsWith (name e) ".map" = false.

(** What [resolve] does once the fast path is left and the walk is
    done, in terms of the collected candidates. *)
Definition search_result (env : Env) (t0 : list Event) (st : WalkState)
    : M BuildPaths :=
  match found st with
  | [] => (t0 ++ io st, Throw NoBuildFolders)
  | _ =>
    match candidates env st with
    | [] => (t0 ++ io st ++ (EvReaddir <$> found st), Throw NoMatchingFiles)
    | first :: _ =>
      bind (t0 ++ io st ++ (EvReaddir <$> found st), Ok tt) (fun _ =>
      bind (select env first (candidates env st)) (fun selectedItem =>
      finish env (item_map selectedItem) (item_elf selectedItem)))
    end
  end.

(** The outcome of the search, by the number of candidates. *)
Definition search_outcome (env : Env) (st : WalkState)
    (t : list Event) (r : Outcome BuildPaths) : Prop :=
  match found st, candidates env st with
  | [], _ => r = Throw NoBuildFolders ∧ prompts t = []
  | _ :: _, [] => r = Throw NoMatchingFiles ∧ prompts t = []
  | _ :: _, [c] =>
    prompts t = [] ∧
    ∃ t' tc, getToolchainPath env = (t', Ok tc) ∧
      r = Ok {| map := item_map c; elf := item_elf c; toolchainPath := tc |}
  | _ :: _, items =>
    prompts t = [items] ∧
    match quickPick env items with
    | None => r = Throw SelectionCancelled
    | Some pick =>
      ∃ t' tc, getToolchainPath env = (t', Ok tc) ∧
        r = Ok {| map := item_map pick; elf := item_elf pick;
                  toolchainPath := tc |}
    end
  end.

(** The same host with another toolchain setting. *)
Definition set_toolchain (tp : option string) (env : Env) : Env :=
  {| cfg_mapFilePath := cfg_mapFilePath env;
     cfg_elfFilePath := cfg_elfFilePath env;
     cfg_toolchainPath := tp;
     workspaceFolders := workspaceFolders env;
     platform := platform env;
     toLowerCase := toLowerCase env;
     path_join := path_join env;
     asRelativePath := asRelativePath env;
     fs_dirs := fs_dirs env;
     fs_readable := fs_readable env;
     fs_existsSync := fs_existsSync env;
     quickPick := quickPick env |}.

(** Whether [resolve] succeeds, with which two paths, or which error
    it throws: its result without the trace and the toolchain. *)
Definition verdict (r : option (M BuildPaths))
    : option (Outcome (string * string)) :=
  match r with
  | Some (_, Ok paths) => Some (Ok (map paths, elf paths))
  | Some (_, Throw e) => Some (Throw e)
  | None => None
  end.

(** Walk the given directories one after the other, on shared sets. *)
Fixpoint walk_each (env : Env) (fuel : nat) (dirs : list string)
    (st : WalkState) : option WalkState :=
  match dirs with
  | [] => Some st
  | d :: rest =>
    match walk env fuel d st with
    | Some st' => walk_each env fuel rest st'
    | None => None
    end
  end.

(** The search roots as the specification words them: first those of
    the six conventional subdirectories that exist, in their fixed
    order; the workspace root itself only if that pass found nothing. *)
Definition spec_find_matching_folders (env : Env) (fuel : nat) (root : string)
    : option WalkState :=
  let existing :=
    List.filter (fs_existsSync env)
      [path_join env root "build"; path_join env root "Build";
       path_join env root "Release"; path_join env root "Debug";
       path_join env root "out"; path_join env root "output"] in
  match walk_each env fuel existing init_state with
  | Some pass =>
    match found pass with
    | [] => walk env fuel root pass
    | _ :: _ => Some pass
    end
  | None => None
  end.

(** Two states with the same sets that listed the same directories. *)
Definition same_sets (st1 st2 : WalkState) : Prop :=
  visited st1 = visited st2 ∧ found st1 = found st2 ∧
  listed (io st1) = listed (io st2).

(** The same host with other listings. *)
Definition set_dirs (dirs : gmap string (list Dirent)) (env : Env) : Env :=
  {| cfg_mapFilePath := cfg_mapFilePath env;
     cfg_elfFilePath := cfg_elfFilePath env;
     cfg_toolchainPath := cfg_toolchainPath env;
     workspaceFolders := workspaceFolders env;
     platform := platform env;
     toLowerCase := toLowerCase env;
     path_join := path_join env;
     asRelativePath := asRelativePath env;
     fs_dirs := dirs;
     fs_readable := fs_readable env;
     fs_existsSync := fs_existsSync env;
     quickPick := quickPick env |}.

(** ** The rest of the resolver and further notions *)

(** [s.includes(sub)] *)
Fixpoint includes (sub s : string) : bool :=
  String.prefix sub s ||
  match s with
  | EmptyString => false
  | String _ s' => includes sub s'
  end.

(** The comparator given to [files.sort] in [findFile]. *)
Definition release_first (a b : string) : Z :=
  if includes "Release" a then (-1)%Z
  else if includes "Release" b then 1%Z
  else if includes "Debug" a then (-1)%Z
  else if includes "Debug" b then 1%Z
  else 0%Z.

(** [findFile(folder, ext)]. [sort] is [Array.prototype.sort] of the
    host and [statSize p] the size that [fs.statSync(p)] reports
    ([None] when it throws). The listing is read outside the [try];
    [fs.accessSync] is logged like the asynchronous probe. *)
Definition findFile (env : Env)
    (sort : (string → string → Z) → list string → list string)
    (statSize : string → option N) (folder ext : string)
    : M (option string) :=
  (let* names := readdirSync env folder in
   let files := List.filter (fun f => Js.endsWith f ext) names in
   if (List.length files =? 0)%nat then ret None
   else
     match sort release_first files with
     | [] => ret None
     | first :: _ =>
       let p := path_join env folder first in
       let* _ := tell (EvAccess p) in
       if fs_readable env p then
         if String.eqb ext ".map" then
           match statSize p with
           | Some size => if (size =? 0)%N then ret None else ret (Some p)
           | None => ret None
           end
         else ret (Some p)
       else ret None
     end)%M.

(** A stable sort by insertion, to run [findFile]. *)
Fixpoint insert_sorted (cmp : string → string → Z) (x : string)
    (l : list string) : list string :=
  match l with
  | [] => [x]
  | y :: l' =>
    if (cmp x y <=? 0)%Z then x :: y :: l' else y :: insert_sorted cmp x l'
  end.

Fixpoint insertion_sort (cmp : string → string → Z) (l : list string)
    : list string :=
  match l with
  | [] => []
  | x :: l' => insert_sorted cmp x (insertion_sort cmp l')
  end.


(** The same host without the two overrides. *)
Definition clear_overrides (env : Env) : Env :=
  {| cfg_mapFilePath := None;
     cfg_elfFilePath := None;
     cfg_toolchainPath := cfg_toolchainPath env;
     workspaceFolders := workspaceFolders env;
     platform := platform env;
     toLowerCase := toLowerCase env;
     path_join := path_join env;
     asRelativePath := asRelativePath env;
     fs_dirs := fs_dirs env;
     fs_readable := fs_readable env;
     fs_existsSync := fs_existsSync env;
     quickPick := quickPick env |}.

(** The notifications shown to the user. *)
Definition is_notification (e : Event) : bool :=
  match e with
  | EvInformationMessage _ | EvWarningMessage _ => true
  | _ => false
  end.

Definition notifications (t : list Event) : list Event :=
  List.filter is_notification t.

(** Every visited directory outside [pending] has all its
    subdirectories visited. *)
Definition closed_except (env : Env) (pending : gset string)
    (st : WalkState) : Prop :=
  ∀ d entries e,
    dir_key env d ∈ visited st → dir_key env d ∉ pending →
    fs_dirs env !! d = Some entries → e ∈ entries → isDirectory e = true →
    dir_key env (path_join env d (name e)) ∈ visited st.

(** The resolver never asks where a symbolic link leads. To tell the
    directory behind a path, the links of a host are given as a table:
    the path of a link and the path of the directory it leads to. *)
Definition real_dir (links : gmap string string) (p : string) : string :=
  default p (links !! p).

(** The host follows the links of the table: probing or listing the
    path of a link is probing or listing the directory it leads to. *)
Definition follows_links (env : Env) (links : gmap string string) : Prop :=
  ∀ l t, links !! l = Some t →
    fs_existsSync env l = fs_existsSync env t ∧
    fs_dirs env !! l = fs_dirs env !! t.

(** ** Strings *)

Lemma endsWith_suffix s suffix :
  Js.endsWith s suffix = true →
  String.substring (String.length s - String.length suffix)
                   (String.length suffix) s = suffix.
Proof.
  unfold Js.endsWith. intros H.
  apply andb_true_iff in H as [_ H]. by apply String.eqb_eq in H.
Qed.

(** A name has at most one of the two extensions, so the [else if] of
    the walk loses nothing. *)
Lemma endsWith_map_not_elf s :
  Js.endsWith s ".map" = true → Js.endsWith s ".elf" = false.
Proof.
  intros Hm. destruct (Js.endsWith s ".elf") eqn:He; [|done].
  apply endsWith_suffix in Hm. apply endsWith_suffix in He.
  simpl in Hm, He. congruence.
Qed.

(** ** Traces *)

Lemma listed_app t1 t2 : listed (t1 ++ t2) = (listed t1 ++ listed t2)%list.
Proof. unfold listed. apply omap_app. Qed.

Lemma elem_of_listed p t : p ∈ listed t ↔ EvReaddir p ∈ t.
Proof.
  unfold listed. rewrite list_elem_of_omap. split.
  - intros (e & He & Hp). destruct e; naive_solver.
  - intros H. exists (EvReaddir p). done.
Qed.

(** ** The walk: what one call does to the two sets *)

Section WalkSpec.
Context (env : Env).

Local Abbreviation key := (dir_key env).

Lemma reaches_trans a b c : reaches env a b → reaches env b c → reaches env a c.
Proof.
  intros Hab Hbc. induction Hbc; [done|]. by eapply reaches_step.
Qed.

Lemma trav_refl st : trav env st st [].
Proof.
  split; simpl.
  - by rewrite app_nil_r.
  - set_solver.
  - set_solver.
  - constructor.
  - set_solver.
  - done.
Qed.

Lemma trav_trans st1 st2 st3 new1 new2 :
  trav env st1 st2 new1 → trav env st2 st3 new2 → trav env st1 st3 (new1 ++ new2).
Proof.
  intros [Hio1 Hv1 Hf1 Hn1 Hd1 Hu1] [Hio2 Hv2 Hf2 Hn2 Hd2 Hu2]. split.
  - rewrite Hio2, Hio1, fmap_app. by rewrite <- app_assoc.
  - rewrite Hv2, Hv1, fmap_app, list_to_set_app_L. set_solver.
  - intros p [Hp|Hp]%elem_of_app; [by apply Hf1|].
    specialize (Hf2 p Hp). rewrite Hv1 in Hf2. set_solver.
  - rewrite fmap_app. apply NoDup_app. split_and!; [done| |done].
    intros k Hk1 (p & -> & Hp)%list_elem_of_fmap.
    specialize (Hf2 p Hp). rewrite Hv1 in Hf2. set_solver.
  - intros d. rewrite Hd2, Hd1, elem_of_app. tauto.
  - auto.
Qed.

Lemma has_file_with_cons ext d l :
  has_file_with ext (d :: l) = is_file_with ext d || has_file_with ext l.
Proof. done. Qed.

(** The loop over the entries: the flags depend on the listing alone,
    the sets are changed by the recursive calls only. *)
Lemma walk_entries_post rec dir :
  (∀ d st st', rec d st = Some st' →
     ∃ new, trav env st st' new ∧ Forall (reaches env d) new) →
  ∀ entries st hasMap hasElf st' hasMap' hasElf',
    walk_entries env rec dir entries (st, hasMap, hasElf)
      = Some (st', hasMap', hasElf') →
    hasMap' = hasMap || has_file_with ".map" entries ∧
    hasElf' = hasElf || has_file_with ".elf" entries ∧
    ∃ new, trav env st st' new ∧
      Forall (fun p => ∃ e, e ∈ entries ∧ isDirectory e = true ∧
                reaches env (path_join env dir (name e)) p) new.
Proof.
  intros Hrec. induction entries as [|d rest IH];
    intros st hasMap hasElf st' hasMap' hasElf' H; simpl in H.
  - simplify_eq. rewrite !orb_false_r. split_and!; [done..|].
    exists []. split; [apply trav_refl | constructor].
  - rewrite !has_file_with_cons. unfold is_file_with.
    destruct (isDirectory d) eqn:Hd; simpl.
    + destruct (rec _ st) as [st1|] eqn:Hr; [|done].
      apply Hrec in Hr as (new1 & Ht1 & Hr1).
      apply IH in H as (-> & -> & new2 & Ht2 & Hr2).
      split_and!; [done..|]. exists (new1 ++ new2). split.
      * by eapply trav_trans.
      * apply Forall_app. split.
        -- eapply Forall_impl; [exact Hr1|]. intros p Hp.
           exists d. split_and!; [left|done|done].
        -- eapply Forall_impl; [exact Hr2|]. intros p (e & He & ? & ?).
           exists e. split_and!; [by right|done|done].
    + destruct (Js.endsWith (name d) ".map") eqn:Hm.
      * rewrite (endsWith_map_not_elf _ Hm).
        apply IH in H as (-> & -> & new & Ht & Hr).
        split_and!; [by rewrite orb_true_r | by rewrite orb_false_l |].
        exists new. split; [done|].
        eapply Forall_impl; [exact Hr|]. intros p (e & He & ? & ?).
        exists e. split_and!; [by right|done|done].
      * destruct (Js.endsWith (name d) ".elf") eqn:He.
        -- apply IH in H as (-> & -> & new & Ht & Hr).
           split_and!; [by rewrite orb_false_l | by rewrite orb_true_r |].
           exists new. split; [done|].
           eapply Forall_impl; [exact Hr|]. intros p (e & ? & ? & ?).
           exists e. split_and!; [by right|done|done].
        -- apply IH in H as (-> & -> & new & Ht & Hr).
           split_and!; [done..|].
           exists new. split; [done|].
           eapply Forall_impl; [exact Hr|]. intros p (e & ? & ? & ?).
           exists e. split_and!; [by right|done|done].
Qed.

Lemma elem_of_set_add x y s : x ∈ Js.set_add y s ↔ x ∈ s ∨ x = y.
Proof.
  unfold Js.set_add. case_bool_decide; [|set_solver].
  split; [by left|]. intros [?| ->]; done.
Qed.

Lemma NoDup_set_add y s : NoDup s → NoDup (Js.set_add y s).
Proof.
  unfold Js.set_add. intros Hs. case_bool_decide; [done|].
  apply NoDup_app. split_and!; [done| |apply NoDup_singleton].
  intros x Hx ->%list_elem_of_singleton. done.
Qed.

(** One call of [walk]: either the directory was visited before and
    nothing changes, or it is listed now, followed by what is below
    it, and it is recorded exactly when its own listing qualifies. *)
Lemma walk_post fuel : ∀ dir st st',
  walk env fuel dir st = Some st' →
  ∃ new, trav env st st' new ∧ Forall (reaches env dir) new.
Proof.
  induction fuel as [|fuel IH]; intros dir st st' H; [done|].
  simpl in H. case_bool_decide as Hvis.
  { simplify_eq. exists []. split; [apply trav_refl | constructor]. }
  destruct (fs_dirs env !! dir) as [entries|] eqn:Hdir.
  - destruct (walk_entries _ _ _ _ _) as [[[st2 hasMap] hasElf]|] eqn:Hloop;
      [|done].
    apply (walk_entries_post _ _ IH) in Hloop
      as (-> & -> & new & [Hio Hv Hf Hn Hd Hu] & Hr).
    simpl in *. exists (dir :: new). split.
    + assert (dir_qualifies env dir
              = has_file_with ".map" entries && has_file_with ".elf" entries)
        as Hq by (unfold dir_qualifies; by rewrite Hdir).
      split.
      * replace (io st') with (io st2) by (simplify_eq; by case_match).
        rewrite Hio. simpl. by rewrite <- app_assoc.
      * replace (visited st') with (visited st2)
          by (simplify_eq; by case_match).
        rewrite Hv. simpl. set_solver.
      * intros p [->|Hp]%elem_of_cons; [done|].
        specialize (Hf p Hp). set_solver.
      * simpl. constructor; [|done].
        intros (p & Hk & Hp)%list_elem_of_fmap.
        specialize (Hf p Hp). rewrite <- Hk in Hf. set_solver.
      * intros d. rewrite elem_of_cons.
        destruct (has_file_with ".map" entries && has_file_with ".elf" entries)
          eqn:Hflags; simplify_eq; simpl.
        -- rewrite elem_of_set_add, Hd. split.
           ++ intros [[?|[? ?]]| ->]; eauto.
           ++ intros [?|[[->|?] ?]]; eauto.
        -- rewrite Hd. split.
           ++ intros [?|[? ?]]; eauto.
           ++ intros [?|[[->|?] ?]]; eauto. congruence.
      * intros Hnd. specialize (Hu Hnd).
        simplify_eq. case_match; [by apply NoDup_set_add | done].
    + constructor; [constructor|].
      eapply Forall_impl; [exact Hr|]. intros p (e & He & Hde & Hp).
      eapply reaches_trans; [|exact Hp].
      eapply reaches_step; [constructor|done..].
  - simplify_eq. exists [dir]. split.
    + split; simpl; [done|set_solver| |apply NoDup_singleton| |done].
      * by intros p ->%list_elem_of_singleton.
      * intros d. unfold dir_qualifies. split; [by left|].
        intros [?|[->%list_elem_of_singleton Hq]]; [done|].
        by rewrite Hdir in Hq.
    + repeat constructor.
Qed.

(** *** The bound on the depth is never reached *)

Lemma unlisted_mono st st' :
  visited st ⊆ visited st' → size (unlisted env st') ≤ size (unlisted env st).
Proof.
  intros Hsub. apply subseteq_size. unfold unlisted.
  intros p. rewrite !elem_of_filter. set_solver.
Qed.

Lemma unlisted_enter dir st entries :
  fs_dirs env !! dir = Some entries →
  key dir ∉ visited st →
  size (unlisted env (emit (EvReaddir dir) (mark_visited (key dir) st)))
    < size (unlisted env st).
Proof.
  intros Hdir Hvis. apply subset_size. unfold unlisted. simpl.
  apply strict_spec_alt. split.
  - intros p. rewrite !elem_of_filter. set_solver.
  - intros Heq. assert (dir ∈ filter (fun p => key p ∉ visited st)
                               (dom (fs_dirs env))) as Hin.
    { apply elem_of_filter. split; [done|]. by apply elem_of_dom. }
    rewrite <- Heq in Hin. apply elem_of_filter in Hin as [Hin _].
    set_solver.
Qed.

Lemma trav_visited_mono st st' new : trav env st st' new → visited st ⊆ visited st'.
Proof. intros [_ Hv _ _ _ _]. rewrite Hv. set_solver. Qed.

Lemma walk_entries_total rec dir n :
  (∀ d st, size (unlisted env st) ≤ n →
     ∃ st', rec d st = Some st' ∧ visited st ⊆ visited st') →
  ∀ entries st hasMap hasElf,
    size (unlisted env st) ≤ n →
    is_Some (walk_entries env rec dir entries (st, hasMap, hasElf)).
Proof.
  intros Hrec. induction entries as [|d rest IH];
    intros st hasMap hasElf Hn; simpl; [done|].
  destruct (isDirectory d).
  - destruct (Hrec (path_join env dir (name d)) st Hn) as (st1 & -> & Hsub).
    apply IH. pose proof (unlisted_mono _ _ Hsub). lia.
  - repeat case_match; by apply IH.
Qed.

Lemma walk_enough_fuel fuel : ∀ dir st,
  size (unlisted env st) < fuel → is_Some (walk env fuel dir st).
Proof.
  induction fuel as [|fuel IH]; intros dir st Hlt; [lia|].
  simpl. case_bool_decide as Hvis; [done|].
  destruct (fs_dirs env !! dir) as [entries|] eqn:Hdir; [|done].
  pose proof (unlisted_enter _ _ _ Hdir Hvis) as Hdec.
  destruct (walk_entries_total (walk env fuel) dir (fuel - 1)) with
    (entries := entries) (hasMap := false) (hasElf := false)
    (st := emit (EvReaddir dir) (mark_visited (key dir) st))
    as [[[st2 hasMap] hasElf] ->]; [|lia|done].
  intros d st0 Hn. destruct (IH d st0) as [st' Hw]; [lia|].
  exists st'. split; [done|].
  apply walk_post in Hw as (new & Ht & _). by eapply trav_visited_mono.
Qed.

(** More fuel does not change the result. *)
Lemma walk_entries_mono (rec1 rec2 : string → WalkState → option WalkState) dir :
  (∀ d st st', rec1 d st = Some st' → rec2 d st = Some st') →
  ∀ entries acc r,
    walk_entries env rec1 dir entries acc = Some r →
    walk_entries env rec2 dir entries acc = Some r.
Proof.
  intros Hrec. induction entries as [|d rest IH]; intros [[st hm] he] r H;
    simpl in *; [done|].
  destruct (isDirectory d).
  - destruct (rec1 _ st) as [st1|] eqn:Hr; [|done].
    rewrite (Hrec _ _ _ Hr). by apply IH.
  - repeat case_match; by apply IH.
Qed.

Lemma walk_fuel_mono fuel : ∀ fuel' dir st st',
  fuel ≤ fuel' →
  walk env fuel dir st = Some st' → walk env fuel' dir st = Some st'.
Proof.
  induction fuel as [|fuel IH]; intros fuel' dir st st' Hle H; [done|].
  destruct fuel' as [|fuel']; [lia|]. simpl in *.
  case_bool_decide; [done|].
  destruct (fs_dirs env !! dir) as [entries|]; [|done].
  destruct (walk_entries env (walk env fuel) _ _ _) as [r|] eqn:Hloop; [|done].
  erewrite walk_entries_mono; [exact H| |exact Hloop].
  intros d st0 st0' Hw. apply IH; [lia|done].
Qed.

End WalkSpec.

(** ** [findBuildFolders]: the prioritized pass and the fallback *)

Lemma probed_app t1 t2 : probed (t1 ++ t2) = probed t1 ++ probed t2.
Proof. unfold probed. apply omap_app. Qed.

Lemma probed_readdir new : probed (EvReaddir <$> new) = [].
Proof. unfold probed. induction new; [done|]. simpl. done. Qed.

Lemma listed_readdir new : listed (EvReaddir <$> new) = new.
Proof.
  unfold listed. induction new as [|p new IH]; [done|].
  change (omap ?f (EvReaddir <$> p :: new))
    with (p :: omap f (EvReaddir <$> new)).
  by rewrite IH.
Qed.

Lemma prompts_app t1 t2 : prompts (t1 ++ t2) = prompts t1 ++ prompts t2.
Proof. unfold prompts. apply omap_app. Qed.

Lemma prompts_readdir new : prompts (EvReaddir <$> new) = [].
Proof. unfold prompts. induction new; [done|]. simpl. done. Qed.

Lemma NoDup_fmap_inj_on {A B} (f : A → B) (l : list A) x y :
  NoDup (f <$> l) → x ∈ l → y ∈ l → f x = f y → x = y.
Proof.
  induction l as [|a l IH]; intros Hnd Hx Hy Hxy; [by apply elem_of_nil in Hx|].
  simpl in Hnd. apply NoDup_cons in Hnd as [Ha Hnd].
  apply elem_of_cons in Hx as [->|Hx]; apply elem_of_cons in Hy as [->|Hy].
  - done.
  - exfalso. apply Ha. rewrite Hxy. by apply list_elem_of_fmap_2.
  - exfalso. apply Ha. rewrite <- Hxy. by apply list_elem_of_fmap_2.
  - by apply IH.
Qed.

Lemma NoDup_fmap_sub {A B} (f : A → B) (l m : list A) :
  NoDup l → (∀ x, x ∈ l → x ∈ m) → NoDup (f <$> m) → NoDup (f <$> l).
Proof.
  intros Hl Hsub Hm. induction Hl as [|x l Hx Hl IH]; simpl; [constructor|].
  constructor.
  - intros (y & Hxy & Hy)%list_elem_of_fmap.
    assert (x = y) as ->; [|done].
    eapply NoDup_fmap_inj_on; [exact Hm| | |done].
    + apply Hsub. by left.
    + apply Hsub. by right.
  - apply IH. intros y Hy. apply Hsub. by right.
Qed.

Section FindSpec.
Context (env : Env).

Local Abbreviation key := (dir_key env).

Lemma scanned_init starts : scanned env starts init_state.
Proof.
  split; simpl; [done|constructor| |constructor|done|constructor].
  intros d. split; [by intros ?%elem_of_nil | by intros [?%elem_of_nil _]].
Qed.

Lemma scanned_probe starts c st :
  scanned env starts st → scanned env starts (emit (EvExistsSync c) st).
Proof.
  intros [Hv Hn Hf Hu Hq Hr].
  split; simpl; rewrite ?listed_app, ?prompts_app; simpl;
    rewrite ?app_nil_r; done.
Qed.

Lemma scanned_trav starts s st st' new :
  s ∈ starts →
  scanned env starts st → trav env st st' new → Forall (reaches env s) new →
  scanned env starts st'.
Proof.
  intros Hs [Hv Hn Hf Hu Hq Hr] [Tio Tv Tf Tn Td Tu] Hreach.
  assert (listed (io st') = listed (io st) ++ new) as Hl.
  { by rewrite Tio, listed_app, listed_readdir. }
  split; rewrite ?Hl.
  - rewrite Tv, Hv, fmap_app, list_to_set_app_L. set_solver.
  - rewrite fmap_app. apply NoDup_app. split_and!; [done| |done].
    intros k Hk (p & -> & Hp)%list_elem_of_fmap.
    apply (Tf p Hp). rewrite Hv. by apply elem_of_list_to_set.
  - intros d. rewrite Td, Hf, elem_of_app. tauto.
  - auto.
  - by rewrite Tio, prompts_app, prompts_readdir, Hq.
  - apply Forall_app. split; [done|].
    eapply Forall_impl; [exact Hreach|]. intros p Hp. by exists s.
Qed.

Lemma walk_scanned starts fuel s st st' :
  s ∈ starts → scanned env starts st →
  walk env fuel s st = Some st' → scanned env starts st'.
Proof.
  intros Hs Hsc (new & Ht & Hr)%walk_post. by eapply scanned_trav.
Qed.

Lemma walk_common_scanned starts fuel : ∀ common st st',
  (∀ c, c ∈ common → c ∈ starts) → scanned env starts st →
  walk_common env fuel common st = Some st' → scanned env starts st'.
Proof.
  induction common as [|c rest IH]; intros st st' Hsub Hsc H; simpl in H.
  { by simplify_eq. }
  assert (∀ c', c' ∈ rest → c' ∈ starts) as Hrest
    by (intros c' Hc'; apply Hsub; by right).
  destruct (fs_existsSync env c).
  - destruct (walk env fuel c _) as [st1|] eqn:Hw; [|done].
    eapply IH; [done| |exact H].
    eapply walk_scanned; [|by apply scanned_probe|exact Hw].
    apply Hsub. by left.
  - eapply IH; [done| |exact H]. by apply scanned_probe.
Qed.

Lemma findBuildFolders_scanned fuel root st :
  findBuildFolders_state env fuel root = Some st →
  scanned env (root :: common_dirs env root) st.
Proof.
  unfold findBuildFolders_state. intros H.
  destruct (walk_common env fuel _ _) as [pass|] eqn:Hpass; [|done].
  assert (scanned env (root :: common_dirs env root) pass) as Hsc.
  { eapply walk_common_scanned; [|apply scanned_init|exact Hpass].
    intros c Hc. by right. }
  destruct (List.length (found pass) =? 0); [|by simplify_eq].
  eapply walk_scanned; [|exact Hsc|exact H]. by left.
Qed.

(** *** Totality *)

Lemma unlisted_bound st : size (unlisted env st) < walk_fuel env.
Proof.
  unfold walk_fuel. rewrite <- size_dom.
  apply Nat.lt_succ_r, subseteq_size. unfold unlisted.
  intros p. rewrite elem_of_filter. tauto.
Qed.

Lemma walk_total dir st : is_Some (walk env (walk_fuel env) dir st).
Proof. apply walk_enough_fuel, unlisted_bound. Qed.

Lemma walk_common_total : ∀ common st,
  is_Some (walk_common env (walk_fuel env) common st).
Proof.
  induction common as [|c rest IH]; intros st; cbn [walk_common]; [done|].
  destruct (fs_existsSync env c); [|apply IH].
  destruct (walk_total c (emit (EvExistsSync c) st)) as [st1 ->]. apply IH.
Qed.

Lemma findBuildFolders_total root : is_Some (findBuildFolders env root).
Proof.
  unfold findBuildFolders, findBuildFolders_state.
  destruct (walk_common_total (common_dirs env root) init_state) as [pass ->].
  destruct (List.length (found pass) =? 0); [apply walk_total | done].
Qed.

(** The resolver always comes back, with a result or with a throw. *)
Lemma resolve_total : is_Some (resolve env).
Proof.
  unfold resolve. destruct (custom_paths env) as [t [[[m e]|]|err]]; [done| |done].
  destruct (workspaceFolders env) as [[|root rest]|]; [done| |done].
  by destruct (findBuildFolders_total root) as [st ->].
Qed.

End FindSpec.

(** ** What the walk depends on *)

Lemma walk_common_fuel_mono env fuel fuel' : ∀ common st st',
  fuel ≤ fuel' →
  walk_common env fuel common st = Some st' →
  walk_common env fuel' common st = Some st'.
Proof.
  induction common as [|c rest IH]; intros st st' Hle H; simpl in *; [done|].
  destruct (fs_existsSync env c); [|by apply IH].
  destruct (walk env fuel c _) as [st1|] eqn:Hw; [|done].
  rewrite (walk_fuel_mono env fuel fuel' _ _ _ Hle Hw). by apply IH.
Qed.

Lemma findBuildFolders_fuel_mono env fuel fuel' root st :
  fuel ≤ fuel' →
  findBuildFolders_state env fuel root = Some st →
  findBuildFolders_state env fuel' root = Some st.
Proof.
  unfold findBuildFolders_state. intros Hle H.
  destruct (walk_common env fuel _ _) as [pass|] eqn:Hpass; [|done].
  rewrite (walk_common_fuel_mono env fuel fuel' _ _ _ Hle Hpass).
  destruct (List.length (found pass) =? 0); [|done].
  by eapply walk_fuel_mono.
Qed.

(** The walk looks at the platform, at the lower-casing, at [path.join],
    at [fs.existsSync] and at the listings, and it cannot tell a directory whose listing
    throws from an empty one. *)
Section EnvExt.
Context (env1 env2 : Env).
Hypothesis Hplatform : platform env1 = platform env2.
Hypothesis Hlower : toLowerCase env1 = toLowerCase env2.
Hypothesis Hjoin : path_join env1 = path_join env2.
Hypothesis HexistsSync : fs_existsSync env1 = fs_existsSync env2.
Hypothesis Hdirs : ∀ d,
  default [] (fs_dirs env1 !! d) = default [] (fs_dirs env2 !! d).

Lemma dir_key_ext dir : dir_key env1 dir = dir_key env2 dir.
Proof. unfold dir_key, isCaseInsensitive. by rewrite Hplatform, Hlower. Qed.

Lemma walk_entries_ext rec1 rec2 dir :
  (∀ d st, rec1 d st = rec2 d st) →
  ∀ entries acc,
    walk_entries env1 rec1 dir entries acc
    = walk_entries env2 rec2 dir entries acc.
Proof.
  intros Hrec. induction entries as [|d rest IH]; intros [[st hm] he];
    simpl; [done|].
  rewrite Hjoin, Hrec. repeat case_match; auto.
Qed.

Lemma walk_ext fuel : ∀ dir st, walk env1 fuel dir st = walk env2 fuel dir st.
Proof.
  induction fuel as [|fuel IH]; intros dir st; simpl; [done|].
  rewrite dir_key_ext. case_bool_decide; [done|].
  pose proof (Hdirs dir) as Hd.
  pose proof (walk_entries_ext (walk env1 fuel) (walk env2 fuel) dir IH) as He.
  destruct (fs_dirs env1 !! dir) as [l1|], (fs_dirs env2 !! dir) as [l2|];
    simpl in Hd; subst; simpl; rewrite ?He; done.
Qed.

Lemma walk_common_ext fuel : ∀ common st,
  walk_common env1 fuel common st = walk_common env2 fuel common st.
Proof.
  induction common as [|c rest IH]; intros st; simpl; [done|].
  rewrite HexistsSync, walk_ext. repeat case_match; auto.
Qed.

Lemma findBuildFolders_state_ext fuel root :
  findBuildFolders_state env1 fuel root = findBuildFolders_state env2 fuel root.
Proof.
  unfold findBuildFolders_state, common_dirs.
  rewrite Hjoin, walk_common_ext. repeat case_match; auto using walk_ext.
Qed.

Lemma findBuildFolders_ext root :
  findBuildFolders env1 root = findBuildFolders env2 root.
Proof.
  destruct (findBuildFolders_total env1 root) as [st1 H1].
  destruct (findBuildFolders_total env2 root) as [st2 H2].
  rewrite H1, H2. unfold findBuildFolders in *.
  apply (findBuildFolders_fuel_mono _ _ (walk_fuel env1 + walk_fuel env2))
    in H1; [|lia].
  apply (findBuildFolders_fuel_mono _ _ (walk_fuel env1 + walk_fuel env2))
    in H2; [|lia].
  rewrite findBuildFolders_state_ext in H1. congruence.
Qed.

End EnvExt.

(** ** The fast path and the toolchain *)

Lemma truthy_Some s : Js.truthy (Some s) = true ↔ s ≠ ""%string.
Proof.
  simpl. rewrite negb_true_iff. split.
  - intros H ->. by rewrite String.eqb_refl in H.
  - intros H. by apply String.eqb_neq.
Qed.

Lemma getToolchainPath_ok env :
  ∃ t tc, getToolchainPath env = (t, Ok tc) ∧ quiet t.
Proof.
  unfold getToolchainPath. destruct (cfg_toolchainPath env) as [p|].
  - destruct (Js.truthy (Some p)); [|by exists [], None].
    unfold exists_, bind, tell, ret. destruct (fs_readable env p); simpl.
    + eexists _, _. split; [done|]. by repeat split.
    + eexists _, _. split; [done|]. by repeat split.
  - by exists [], None.
Qed.

Lemma finish_ok env m e :
  ∃ t tc, getToolchainPath env = (t, Ok tc) ∧
    finish env m e = (t, Ok {| map := m; elf := e; toolchainPath := tc |}).
Proof.
  destruct (getToolchainPath_ok env) as (t & tc & H & _).
  exists t, tc. split; [done|]. unfold finish. rewrite H. simpl.
  by rewrite app_nil_r.
Qed.

Lemma custom_paths_taken env m e :
  cfg_mapFilePath env = Some m → cfg_elfFilePath env = Some e →
  fast_path env = true →
  custom_paths env = ([EvAccess m; EvAccess e], Ok (Some (m, e))).
Proof.
  unfold fast_path, custom_paths. intros -> ->.
  intros [[[Hm He]%andb_true_iff Hrm]%andb_true_iff Hre]%andb_true_iff.
  rewrite Hm, He. unfold exists_, bind, tell, ret. simpl.
  rewrite Hrm. simpl. by rewrite Hre.
Qed.

Lemma custom_paths_not_taken env :
  fast_path env = false →
  ∃ t, custom_paths env = (t, Ok None) ∧ quiet t.
Proof.
  unfold fast_path, custom_paths. intros H.
  destruct (cfg_mapFilePath env) as [m|]; [|by exists []].
  destruct (cfg_elfFilePath env) as [e|]; [|by exists []].
  destruct (Js.truthy (Some m) && Js.truthy (Some e)); [|by exists []].
  unfold exists_, bind, tell, ret. simpl in *.
  destruct (fs_readable env m); simpl in *.
  - rewrite H. eexists. split; [done|]. by repeat split.
  - eexists. split; [done|]. by repeat split.
Qed.

(** ** Stems and extensions *)

Section StringFacts.
Local Open Scope string_scope.

Lemma length_append s t :
  String.length (s ++ t) = (String.length s + String.length t)%nat.
Proof. induction s as [|c s IH]; simpl; [done|]. by rewrite IH. Qed.

Lemma substring_drop s t m :
  String.substring (String.length s) m (s ++ t) = String.substring 0 m t.
Proof. induction s as [|c s IH]; simpl; done. Qed.

Lemma substring_whole t : String.substring 0 (String.length t) t = t.
Proof. induction t as [|c t IH]; simpl; [done|]. by rewrite IH. Qed.

Lemma substring_take s t : String.substring 0 (String.length s) (s ++ t) = s.
Proof.
  induction s as [|c s IH]; simpl; [by destruct t|]. by rewrite IH.
Qed.

Lemma substring_split s : ∀ n, (n ≤ String.length s)%nat →
  s = String.substring 0 n s ++ String.substring n (String.length s - n) s.
Proof.
  induction s as [|c s IH]; intros [|n] Hn; simpl in *; try done; try lia.
  - by rewrite substring_whole.
  - change (String c s = String c (String.substring 0 n s
             ++ String.substring n (String.length s - n) s)).
    rewrite <- IH; [done|lia].
Qed.

Lemma endsWith_append s ext : Js.endsWith (s ++ ext) ext = true.
Proof.
  unfold Js.endsWith. rewrite length_append.
  apply andb_true_iff. split; [apply Nat.leb_le; lia|].
  replace (String.length s + String.length ext - String.length ext)%nat
    with (String.length s) by lia.
  rewrite substring_drop, substring_whole. apply String.eqb_refl.
Qed.

Lemma basename_append s ext : Js.basename (s ++ ext) ext = s.
Proof.
  unfold Js.basename. rewrite endsWith_append, length_append.
  replace (String.length s + String.length ext - String.length ext)%nat
    with (String.length s) by lia.
  apply substring_take.
Qed.

Lemma endsWith_basename s ext :
  Js.endsWith s ext = true → s = Js.basename s ext ++ ext.
Proof.
  intros H. unfold Js.basename. rewrite H.
  pose proof (endsWith_suffix _ _ H) as Hsuf.
  unfold Js.endsWith in H. apply andb_true_iff in H as [Hle%Nat.leb_le _].
  rewrite (substring_split s (String.length s - String.length ext)) at 1
    by lia.
  f_equal. rewrite <- Hsuf at 3. f_equal. lia.
Qed.

Lemma append_nonempty s ext : ext ≠ "" → s ++ ext ≠ "".
Proof. intros H. destruct s; simpl; [done|discriminate]. Qed.

End StringFacts.

(** ** Pairing binaries with maps *)

Lemma filter_filter {A} (P Q : A → bool) (l : list A) :
  List.filter P (List.filter Q l) = List.filter (fun x => Q x && P x) l.
Proof.
  induction l as [|x l IH]; simpl; [done|].
  destruct (Q x); simpl; [|done]. destruct (P x); by rewrite IH.
Qed.

Lemma elem_of_filter_bool {A} (P : A → bool) (l : list A) x :
  x ∈ List.filter P l ↔ x ∈ l ∧ P x = true.
Proof. rewrite !list_elem_of_In. apply filter_In. Qed.

Lemma pair_elfs_spec env folder maps : ∀ elfs,
  pair_elfs env folder maps elfs
  = candidate env folder
      <$> List.filter (fun e => bool_decide ((stem e ++ ".map")%string ∈ maps)) elfs.
Proof.
  induction elfs as [|e rest IH]; simpl; [done|].
  fold (stem e).
  destruct (find _ maps) as [m|] eqn:Hfind.
  - apply find_some in Hfind as [Hin ->%String.eqb_eq].
    assert (Js.truthy (Some (stem e ++ ".map")%string) = true) as ->.
    { apply truthy_Some, append_nonempty. discriminate. }
    rewrite bool_decide_true by (by apply list_elem_of_In).
    simpl. by rewrite IH.
  - simpl. rewrite bool_decide_false; [done|].
    intros Hin%list_elem_of_In.
    apply (find_none _ _ Hfind) in Hin. by rewrite String.eqb_refl in Hin.
Qed.

Lemma pair_files_spec env folder files :
  pair_files env folder files
  = candidate env folder <$> List.filter (is_paired files) files.
Proof.
  unfold pair_files. rewrite pair_elfs_spec, filter_filter. f_equal.
  apply filter_ext. intros f. unfold is_paired. f_equal.
  apply bool_decide_ext. rewrite elem_of_filter_bool.
  split; [by intros [? _]|]. intros H. split; [done|].
  apply endsWith_append.
Qed.

Lemma collect_items_spec env : ∀ folders items,
  (∀ f, f ∈ folders → is_Some (fs_dirs env !! f)) →
  collect_items env folders items
  = (EvReaddir <$> folders,
     Ok (items ++ List.concat (paired_by_name env <$> folders))).
Proof.
  induction folders as [|f rest IH]; intros items Hdirs; simpl.
  { by rewrite app_nil_r. }
  destruct (Hdirs f) as [entries Hf]; [by left|].
  unfold readdirSync, paired_by_name at 1. rewrite Hf.
  unfold bind at 1 2, tell, ret. simpl.
  rewrite IH by (intros f' Hf'; apply Hdirs; by right).
  by rewrite pair_files_spec, <- app_assoc.
Qed.

Lemma dir_qualifies_listable env d :
  dir_qualifies env d = true → is_Some (fs_dirs env !! d).
Proof. unfold dir_qualifies. by destruct (fs_dirs env !! d). Qed.

Lemma found_qualifies env root st :
  findBuildFolders env root = Some st →
  ∀ d, d ∈ found st → dir_qualifies env d = true.
Proof.
  intros H%findBuildFolders_scanned d Hd.
  by apply (sc_found _ _ _ H) in Hd as [_ ?].
Qed.

(** ** The search path of [resolve] *)

Lemma resolve_search_spec env root st t0 :
  findBuildFolders env root = Some st →
  bind (t0 ++ io st, Ok tt) (fun _ => resolve_search env st)
  = search_result env t0 st.
Proof.
  intros Hst. unfold resolve_search, search_result, candidates.
  destruct (found st) as [|f rest] eqn:Hfound.
  { simpl. by rewrite !app_nil_r. }
  rewrite <- Hfound.
  rewrite collect_items_spec; last first.
  { intros d Hd. eapply dir_qualifies_listable, found_qualifies; done. }
  assert ((List.length (found st) =? 0) = false) as -> by (by rewrite Hfound).
  rewrite app_nil_l.
  destruct (List.concat _) as [|first items] eqn:Hitems.
  - unfold bind, throw, ret. simpl. by rewrite !app_nil_r, <- app_assoc.
  - destruct (select env first (first :: items)) as [ts [sel|e]] eqn:Hsel.
    + destruct (finish env (item_map sel) (item_elf sel)) as [tf rf] eqn:Hfin.
      unfold bind, ret. rewrite Hsel, Hfin. simpl.
      by rewrite <- !app_assoc.
    + unfold bind, ret. rewrite Hsel. simpl. by rewrite <- !app_assoc.
Qed.

Lemma resolve_slow env root rest :
  fast_path env = false →
  workspaceFolders env = Some (root :: rest) →
  ∃ t0 st, quiet t0 ∧ findBuildFolders env root = Some st ∧
    resolve env = Some (search_result env t0 st).
Proof.
  intros (t0 & Hcp & Hq)%custom_paths_not_taken Hws.
  destruct (findBuildFolders_total env root) as [st Hst].
  exists t0, st. split_and!; [done..|].
  unfold resolve. rewrite Hcp, Hws, Hst.
  by erewrite resolve_search_spec.
Qed.

Lemma paired_by_name_nonempty env d :
  paired_by_name env d ≠ [] ↔ has_name_pair env d.
Proof.
  unfold paired_by_name, has_name_pair.
  destruct (fs_dirs env !! d) as [entries|]; last first.
  { split; [done|]. by intros (? & ? & ? & _). }
  set (files := name <$> entries). split.
  - intros Hne. destruct (List.filter _ files) as [|f l] eqn:Hf; [done|].
    assert (f ∈ List.filter (is_paired files) files) as Hin
      by (rewrite Hf; by left).
    apply elem_of_filter_bool in Hin as [Hin [He Hm]%andb_true_iff].
    apply bool_decide_eq_true in Hm.
    exists entries, (stem f). split_and!; [done| |done].
    unfold stem. by rewrite <- endsWith_basename.
  - intros (? & s & [= <-] & He & Hm).
    assert ((s ++ ".elf")%string ∈ List.filter (is_paired files) files) as Hin.
    { apply elem_of_filter_bool. split; [done|]. unfold is_paired, stem.
      rewrite endsWith_append, basename_append. by rewrite bool_decide_true. }
    destruct (List.filter _ files); [by apply elem_of_nil in Hin|done].
Qed.

Lemma candidates_empty env st :
  candidates env st = [] ↔ ∀ d, d ∈ found st → ¬ has_name_pair env d.
Proof.
  unfold candidates. induction (found st) as [|f l IH].
  { split; [|done]. by intros _ d ?%elem_of_nil. }
  rewrite fmap_cons. cbn [List.concat]. split.
  - intros [Hf Hl]%app_eq_nil d [->|Hd]%elem_of_cons.
    + rewrite <- paired_by_name_nonempty. by intros ?.
    + by apply IH.
  - intros H. rewrite (proj2 IH) by (intros d Hd; apply H; by right).
    rewrite app_nil_r.
    destruct (paired_by_name env f) eqn:Hf; [done|].
    exfalso. apply (H f); [by left|]. apply paired_by_name_nonempty. by rewrite Hf.
Qed.

Lemma paired_names_nonempty files :
  List.filter (is_paired files) files ≠ [] ↔
  ∃ s, (s ++ ".elf")%string ∈ files ∧ (s ++ ".map")%string ∈ files.
Proof.
  split.
  - intros Hne. destruct (List.filter _ files) as [|f l] eqn:Hf; [done|].
    assert (f ∈ List.filter (is_paired files) files) as Hin
      by (rewrite Hf; by left).
    apply elem_of_filter_bool in Hin as [Hin [He Hm]%andb_true_iff].
    apply bool_decide_eq_true in Hm.
    exists (stem f). split; [|done].
    unfold stem. by rewrite <- endsWith_basename.
  - intros (s & He & Hm).
    assert ((s ++ ".elf")%string ∈ List.filter (is_paired files) files) as Hin.
    { apply elem_of_filter_bool. split; [done|]. unfold is_paired, stem.
      rewrite endsWith_append, basename_append. by rewrite bool_decide_true. }
    destruct (List.filter _ files); [by apply elem_of_nil in Hin|done].
Qed.

Lemma spec_pair_files_nonempty env d :
  spec_pair_files env d ≠ [] ↔ has_file_pair env d.
Proof.
  unfold spec_pair_files, has_file_pair.
  destruct (fs_dirs env !! d) as [entries|]; last first.
  { split; [done|]. by intros (? & ? & ? & _). }
  assert (∀ l : list string, candidate env d <$> l ≠ [] ↔ l ≠ []) as ->
    by (by intros [|??]).
  rewrite paired_names_nonempty. split.
  - intros (s & ? & ?). by exists entries, s.
  - intros (? & s & [= <-] & ? & ?). by exists s.
Qed.

Lemma elem_of_file_names entries n :
  n ∈ file_names entries ↔
  ∃ e, e ∈ entries ∧ isDirectory e = false ∧ name e = n.
Proof.
  unfold file_names. rewrite list_elem_of_fmap. split.
  - intros (e & -> & [? ?%negb_true_iff]%elem_of_filter_bool). by exists e.
  - intros (e & ? & ? & <-). exists e. split; [done|].
    apply elem_of_filter_bool. split; [done|]. by apply negb_true_iff.
Qed.

Lemma filter_file_names (P : string → bool) entries :
  (∀ e, e ∈ entries → isDirectory e = true → P (name e) = false) →
  List.filter P (name <$> entries) = List.filter P (file_names entries).
Proof.
  unfold file_names. induction entries as [|e rest IH]; intros HP; [done|].
  rewrite fmap_cons. cbn [List.filter].
  rewrite IH by (intros e' He'; apply HP; by right).
  destruct (isDirectory e) eqn:Hd; simpl; [|done].
  by rewrite (HP e) by (done || by left).
Qed.

Lemma paired_files_names entries :
  artifacts_are_files entries →
  List.filter (is_paired (name <$> entries)) (name <$> entries)
  = List.filter (is_paired (file_names entries)) (file_names entries).
Proof.
  intros Hfiles. rewrite filter_file_names; last first.
  { intros e He Hd. unfold is_paired.
    by rewrite (proj1 (Hfiles e He Hd)). }
  apply filter_ext. intros f. unfold is_paired. f_equal.
  apply bool_decide_ext. rewrite elem_of_file_names, list_elem_of_fmap.
  split.
  - intros (e & Hn & He). exists e. split_and!; [done| |done].
    destruct (isDirectory e) eqn:Hd; [|done].
    destruct (Hfiles e He Hd) as [_ Hm].
    rewrite <- Hn in Hm. by rewrite endsWith_append in Hm.
  - intros (e & ? & _ & ?). by exists e.
Qed.

Lemma name_pair_file_pair env f entries :
  fs_dirs env !! f = Some entries →
  artifacts_are_files entries →
  paired_by_name env f = spec_pair_files env f ∧
  (has_name_pair env f ↔ has_file_pair env f).
Proof.
  intros Hdir Hfiles.
  assert (paired_by_name env f = spec_pair_files env f) as Heq.
  { unfold paired_by_name, spec_pair_files.
    by rewrite Hdir, paired_files_names. }
  split; [done|].
  by rewrite <- paired_by_name_nonempty, <- spec_pair_files_nonempty, Heq.
Qed.

Lemma search_result_outcome env t0 st :
  quiet t0 → prompts (io st) = [] →
  ∃ t r, search_result env t0 st = (t, r) ∧ search_outcome env st t r.
Proof.
  intros (_ & _ & Hq0) Hqs. unfold search_result, search_outcome.
  destruct (found st) as [|f rest].
  { eexists _, _. split; [done|]. by rewrite prompts_app, Hq0, Hqs. }
  assert (prompts (t0 ++ io st ++ (EvReaddir <$> f :: rest)) = []) as Hpre.
  { by rewrite !prompts_app, Hq0, Hqs, prompts_readdir. }
  generalize dependent (t0 ++ io st ++ (EvReaddir <$> f :: rest)).
  intros pre Hpre.
  destruct (candidates env st) as [|c [|c2 items]].
  - eexists _, _. split; [done|]. done.
  - destruct (finish_ok env (item_map c) (item_elf c)) as (t' & tc & Htc & Hfin).
    destruct (getToolchainPath_ok env) as (t'' & tc'' & Htc'' & _ & _ & Hqt).
    rewrite Htc in Htc''. simplify_eq.
    unfold select. simpl. unfold bind, ret. rewrite Hfin.
    eexists _, _. split; [done|]. split; [|by eauto].
    by rewrite !prompts_app, Hqt, Hpre.
  - unfold select. cbn [List.length Nat.ltb Nat.leb].
    destruct (getToolchainPath_ok env) as (t'' & tc'' & Htc'' & _ & _ & Hqt).
    destruct (quickPick env (c :: c2 :: items)) as [pick|].
    + destruct (finish_ok env (item_map pick) (item_elf pick))
        as (t' & tc & Htc & Hfin).
      rewrite Htc in Htc''. simplify_eq.
      unfold bind, tell, ret. rewrite Hfin.
      eexists _, _. split; [done|]. split; [|by eauto].
      rewrite !prompts_app, Hqt, Hpre. done.
    + unfold bind, tell, throw. eexists _, _. split; [done|]. split; [|done].
      rewrite !prompts_app, Hpre. done.
Qed.

(** Every run of [resolve] that leaves the fast path and has a
    workspace ends as [search_outcome] says. *)
Lemma search_outcome_no_matching env st t r :
  search_outcome env st t r →
  (r = Throw NoMatchingFiles ↔
     found st ≠ [] ∧ ∀ d, d ∈ found st → ¬ has_name_pair env d).
Proof.
  intros Hout. rewrite <- candidates_empty. unfold search_outcome in Hout.
  destruct (found st) as [|f l] eqn:Hfound.
  { destruct Hout as [-> _]. split; [done|]. by intros [? _]. }
  destruct (candidates env st) as [|c [|c2 items]].
  - destruct Hout as [-> _]. done.
  - destruct Hout as (_ & ? & ? & _ & ->). split; [done|]. by intros [_ ?].
  - destruct Hout as [_ Hout]. split; [|by intros [_ ?]].
    intros ->. destruct (quickPick env _); [|done].
    by destruct Hout as (? & ? & _ & ?).
Qed.

Lemma resolve_search_outcome env root rest :
  fast_path env = false →
  workspaceFolders env = Some (root :: rest) →
  ∃ st t r, findBuildFolders env root = Some st ∧
    resolve env = Some (t, r) ∧ search_outcome env st t r.
Proof.
  intros Hfast Hws.
  destruct (resolve_slow env root rest Hfast Hws) as (t0 & st & Hq & Hst & Hres).
  destruct (search_result_outcome env t0 st Hq) as (t & r & Hsr & Hout).
  { apply findBuildFolders_scanned in Hst. by destruct Hst. }
  exists st, t, r. split_and!; [done| |done]. by rewrite Hres, Hsr.
Qed.

Lemma resolve_fast_path env m e :
  cfg_mapFilePath env = Some m → cfg_elfFilePath env = Some e →
  fast_path env = true →
  ∃ t tc, getToolchainPath env = (t, Ok tc) ∧ quiet t ∧
    resolve env = Some (EvAccess m :: EvAccess e :: t,
                        Ok {| map := m; elf := e; toolchainPath := tc |}).
Proof.
  intros Hm He Hfast.
  destruct (finish_ok env m e) as (t & tc & Htc & Hfin).
  destruct (getToolchainPath_ok env) as (t' & tc' & Htc' & Hq).
  rewrite Htc in Htc'. simplify_eq.
  exists t', tc'. split_and!; [done..|].
  unfold resolve. rewrite (custom_paths_taken env _ _ Hm He Hfast).
  unfold bind. by rewrite Hfin.
Qed.

Lemma resolve_fast env :
  fast_path env = true →
  ∃ m e t tc, cfg_mapFilePath env = Some m ∧ cfg_elfFilePath env = Some e ∧
    resolve env = Some (t, Ok {| map := m; elf := e; toolchainPath := tc |}).
Proof.
  intros Hfast. pose proof Hfast as Hf. unfold fast_path in Hf.
  destruct (cfg_mapFilePath env) as [m|] eqn:Hm; [|done].
  destruct (cfg_elfFilePath env) as [e|] eqn:He; [|done].
  destruct (resolve_fast_path env m e) as (t & tc & _ & _ & Hres); [done..|].
  by eexists m, e, _, tc.
Qed.

Lemma resolve_no_workspace env :
  fast_path env = false →
  (workspaceFolders env = None ∨ workspaceFolders env = Some []) →
  ∃ t, resolve env = Some (t, Throw NoWorkspaceFolderOpen).
Proof.
  intros (t0 & Hcp & _)%custom_paths_not_taken Hws.
  exists t0. unfold resolve. rewrite Hcp. by destruct Hws as [-> | ->].
Qed.

Lemma verdict_set_toolchain tp env :
  verdict (resolve (set_toolchain tp env)) = verdict (resolve env).
Proof.
  destruct (fast_path env) eqn:Hfast.
  - destruct (resolve_fast env Hfast) as (m & e & t & tc & Hm & He & ->).
    destruct (resolve_fast (set_toolchain tp env) Hfast)
      as (m' & e' & t' & tc' & Hm' & He' & ->).
    simpl in *. congruence.
  - destruct (workspaceFolders env) as [[|root rest]|] eqn:Hws.
    + destruct (resolve_no_workspace env) as [t ->]; [done|by right|].
      destruct (resolve_no_workspace (set_toolchain tp env)) as [t' ->];
        [done|by right|done].
    + destruct (resolve_search_outcome env root rest Hfast Hws)
        as (st & t & r & Hst & -> & Hout).
      destruct (resolve_search_outcome (set_toolchain tp env) root rest Hfast Hws)
        as (st' & t' & r' & Hst' & -> & Hout').
      rewrite (findBuildFolders_ext (set_toolchain tp env) env) in Hst'
        by done.
      simplify_eq. unfold search_outcome in *.
      change (candidates (set_toolchain tp env) st)
        with (candidates env st) in Hout'.
      change (quickPick (set_toolchain tp env)) with (quickPick env) in Hout'.
      destruct (found st) as [|f l].
      { destruct Hout as [-> _], Hout' as [-> _]. done. }
      destruct (candidates env st) as [|c [|c2 items]].
      * destruct Hout as [-> _], Hout' as [-> _]. done.
      * destruct Hout as (_ & ? & ? & _ & ->), Hout' as (_ & ? & ? & _ & ->).
        done.
      * destruct Hout as [_ Hout], Hout' as [_ Hout'].
        destruct (quickPick env (c :: c2 :: items)).
        -- destruct Hout as (? & ? & _ & ->), Hout' as (? & ? & _ & ->). done.
        -- by subst.
    + destruct (resolve_no_workspace env) as [t ->]; [done|by left|].
      destruct (resolve_no_workspace (set_toolchain tp env)) as [t' ->];
        [done|by left|done].
Qed.

Lemma has_file_with_true ext entries :
  has_file_with ext entries = true ↔
  ∃ e, e ∈ entries ∧ isDirectory e = false ∧ Js.endsWith (name e) ext = true.
Proof.
  unfold has_file_with. rewrite existsb_exists. unfold is_file_with. split.
  - intros (e & He%list_elem_of_In & [Hd%negb_true_iff Hx]%andb_true_iff).
    by exists e.
  - intros (e & He%list_elem_of_In & Hd & Hx). exists e. split; [done|].
    by rewrite Hd, Hx.
Qed.

Lemma elem_of_paired_by_name env folder item :
  item ∈ paired_by_name env folder ↔
  ∃ entries s, fs_dirs env !! folder = Some entries ∧
    (s ++ ".elf")%string ∈ name <$> entries ∧
    (s ++ ".map")%string ∈ name <$> entries ∧
    item = {| label := ("$(file-binary) " ++ s)%string;
              detail := asRelativePath env folder;
              item_elf := path_join env folder (s ++ ".elf")%string;
              item_map := path_join env folder (s ++ ".map")%string |}.
Proof.
  unfold paired_by_name.
  destruct (fs_dirs env !! folder) as [entries|]; last first.
  { split; [by intros ?%elem_of_nil|]. by intros (? & ? & ? & _). }
  rewrite list_elem_of_fmap. split.
  - intros (f & -> & [Hf [He Hm%bool_decide_eq_true]%andb_true_iff]
                     %elem_of_filter_bool).
    exists entries, (stem f). unfold candidate, stem in *.
    rewrite <- (endsWith_basename _ _ He). done.
  - intros (? & s & [= <-] & He & Hm & ->). exists (s ++ ".elf")%string.
    unfold candidate, stem. rewrite basename_append. split; [done|].
    apply elem_of_filter_bool. split; [done|]. unfold is_paired, stem.
    rewrite endsWith_append, basename_append. by rewrite bool_decide_true.
Qed.

(** ** The prioritized pass, one directory after the other *)

Lemma same_sets_refl st : same_sets st st.
Proof. done. Qed.

Lemma same_sets_probe c st1 st2 :
  same_sets st1 st2 → same_sets (emit (EvExistsSync c) st1) st2.
Proof.
  intros (? & ? & Hl). split_and!; [done..|].
  simpl. rewrite listed_app, Hl. simpl. by rewrite app_nil_r.
Qed.

Lemma walk_entries_same_sets env rec dir :
  (∀ d st1 st2 st1', rec d st1 = Some st1' → same_sets st1 st2 →
     ∃ st2', rec d st2 = Some st2' ∧ same_sets st1' st2') →
  ∀ entries st1 st2 hasMap hasElf st1' hasMap' hasElf',
    walk_entries env rec dir entries (st1, hasMap, hasElf)
      = Some (st1', hasMap', hasElf') →
    same_sets st1 st2 →
    ∃ st2', walk_entries env rec dir entries (st2, hasMap, hasElf)
              = Some (st2', hasMap', hasElf') ∧ same_sets st1' st2'.
Proof.
  intros Hrec. induction entries as [|d rest IH];
    intros st1 st2 hasMap hasElf st1' hasMap' hasElf' H Hs; simpl in *.
  { simplify_eq. by exists st2. }
  destruct (isDirectory d).
  - destruct (rec _ st1) as [st1a|] eqn:Hr; [|done].
    destruct (Hrec _ _ _ _ Hr Hs) as (st2a & -> & Hsa). by eapply IH.
  - repeat case_match; by eapply IH.
Qed.

Lemma walk_same_sets env fuel : ∀ dir st1 st2 st1',
  walk env fuel dir st1 = Some st1' → same_sets st1 st2 →
  ∃ st2', walk env fuel dir st2 = Some st2' ∧ same_sets st1' st2'.
Proof.
  induction fuel as [|fuel IH]; intros dir st1 st2 st1' H Hs; [done|].
  simpl in *. destruct Hs as (Hv & Hf & Hl). rewrite <- Hv.
  case_bool_decide.
  { simplify_eq. by exists st2. }
  assert (same_sets (emit (EvReaddir dir) (mark_visited (dir_key env dir) st1))
                    (emit (EvReaddir dir) (mark_visited (dir_key env dir) st2)))
    as Hs1.
  { split_and!; simpl; [by rewrite Hv|done|]. by rewrite !listed_app, Hl. }
  destruct (fs_dirs env !! dir) as [entries|].
  - destruct (walk_entries env _ _ _ _) as [[[st1b hm] he]|] eqn:Hloop; [|done].
    destruct (walk_entries_same_sets env (walk env fuel) dir IH _ _ _ _ _ _ _ _
                Hloop Hs1) as (st2b & -> & (Hvb & Hfb & Hlb)).
    simplify_eq. eexists. split; [done|].
    destruct (hm && he); [|done].
    split_and!; simpl; [done| |done]. by rewrite Hfb.
  - simplify_eq. eexists. split; [done|]. done.
Qed.

Lemma walk_common_each env fuel : ∀ common st1 st2 st1',
  walk_common env fuel common st1 = Some st1' → same_sets st1 st2 →
  ∃ st2', walk_each env fuel (List.filter (fs_existsSync env) common) st2
            = Some st2' ∧
    same_sets st1' st2' ∧ probed (io st1') = probed (io st1) ++ common.
Proof.
  induction common as [|c rest IH]; intros st1 st2 st1' H Hs; simpl in *.
  { simplify_eq. exists st2. by rewrite app_nil_r. }
  destruct (fs_existsSync env c).
  - destruct (walk env fuel c _) as [st1a|] eqn:Hw; [|done].
    destruct (walk_same_sets env fuel _ _ st2 _ Hw) as (st2a & Hw2 & Hsa).
    { by apply same_sets_probe. }
    simpl. rewrite Hw2.
    destruct (IH _ _ _ H Hsa) as (st2' & -> & Hs' & Hp).
    exists st2'. split_and!; [done..|]. rewrite Hp.
    apply walk_post in Hw as (new & [Tio _ _ _ _ _] & _).
    rewrite Tio, probed_app, probed_readdir. simpl.
    rewrite probed_app. simpl. by rewrite app_nil_r, <- app_assoc.
  - destruct (IH _ st2 _ H) as (st2' & -> & Hs' & Hp).
    { by apply same_sets_probe. }
    exists st2'. split_and!; [done..|]. rewrite Hp. simpl.
    rewrite probed_app. simpl. by rewrite <- app_assoc.
Qed.

Lemma walk_lists_start env fuel dir st st' :
  walk env fuel dir st = Some st' →
  dir_key env dir ∉ visited st → EvReaddir dir ∈ io st'.
Proof.
  destruct fuel as [|fuel]; [done|]. simpl. intros H Hvis.
  rewrite bool_decide_false in H by done.
  destruct (fs_dirs env !! dir) as [entries|].
  - destruct (walk_entries env _ _ _ _) as [[[st2 hm] he]|] eqn:Hloop; [|done].
    eapply walk_entries_post in Hloop as (_ & _ & new & [Tio _ _ _ _ _] & _);
      [|apply walk_post].
    assert (io st' = io st2) as -> by (simplify_eq; by case_match).
    rewrite Tio. simpl. set_solver.
  - simplify_eq. simpl. set_solver.
Qed.

(** ** A directory that cannot be listed *)

Lemma resolve_throws env t e :
  resolve env = Some (t, Throw e) →
  e = NoWorkspaceFolderOpen ∨ e = NoBuildFolders ∨ e = NoMatchingFiles
  ∨ e = SelectionCancelled.
Proof.
  intros Hres. destruct (fast_path env) eqn:Hfast.
  { destruct (resolve_fast env Hfast) as (? & ? & ? & ? & _ & _ & Hok).
    congruence. }
  destruct (workspaceFolders env) as [[|root rest]|] eqn:Hws.
  - destruct (resolve_no_workspace env) as [t1 Hres1]; [done|by right|].
    left. congruence.
  - destruct (resolve_search_outcome env root rest Hfast Hws)
      as (st & t1 & r & Hst & Hres1 & Hout).
    rewrite Hres in Hres1. simplify_eq. unfold search_outcome in Hout.
    destruct (found st); [destruct Hout as [? _]; simplify_eq; tauto|].
    destruct (candidates env st) as [|c [|c2 items]].
    + destruct Hout as [? _]. simplify_eq. tauto.
    + by destruct Hout as (_ & ? & ? & _ & ?).
    + destruct Hout as [_ Hout]. destruct (quickPick env _).
      * by destruct Hout as (? & ? & _ & ?).
      * simplify_eq. tauto.
  - destruct (resolve_no_workspace env) as [t1 Hres1]; [done|by left|].
    left. congruence.
Qed.

Lemma set_dirs_empty_default env d x :
  fs_dirs env !! d = None →
  default [] (fs_dirs (set_dirs (<[d:=[]]> (fs_dirs env)) env) !! x)
  = default [] (fs_dirs env !! x).
Proof.
  intros Hd. simpl. destruct (decide (d = x)) as [<-|Hne].
  - by rewrite lookup_insert_eq, Hd.
  - by rewrite lookup_insert_ne.
Qed.

Lemma findBuildFolders_set_dirs_empty env d root :
  fs_dirs env !! d = None →
  findBuildFolders (set_dirs (<[d:=[]]> (fs_dirs env)) env) root
  = findBuildFolders env root.
Proof.
  intros Hd. apply findBuildFolders_ext; [done..|].
  intros x. by apply set_dirs_empty_default.
Qed.

Lemma resolve_set_dirs_empty env d :
  fs_dirs env !! d = None →
  resolve (set_dirs (<[d:=[]]> (fs_dirs env)) env) = resolve env.
Proof.
  intros Hd. set (env' := set_dirs (<[d:=[]]> (fs_dirs env)) env).
  unfold resolve. change (custom_paths env') with (custom_paths env).
  destruct (custom_paths env) as [t [[[m e]|]|err]]; [reflexivity| |done].
  change (workspaceFolders env') with (workspaceFolders env).
  destruct (workspaceFolders env) as [[|root rest]|]; [done| |done].
  unfold env'. rewrite findBuildFolders_set_dirs_empty by done.
  destruct (findBuildFolders env root) as [st|] eqn:Hst; [|done].
  do 2 f_equal. fold env'. unfold resolve_search.
  assert (∀ f, f ∈ found st → fs_dirs env' !! f = fs_dirs env !! f) as Hsame.
  { intros f Hf. simpl. apply lookup_insert_ne. intros <-.
    apply (found_qualifies _ _ _ Hst) in Hf. unfold dir_qualifies in Hf.
    by rewrite Hd in Hf. }
  assert (∀ f, f ∈ found st → is_Some (fs_dirs env !! f)) as Hlist.
  { intros f Hf. eapply dir_qualifies_listable, found_qualifies; done. }
  rewrite (collect_items_spec env'), (collect_items_spec env); first last.
  - intros f Hf. rewrite (Hsame f Hf). by apply Hlist.
  - done.
  - replace (paired_by_name env' <$> found st)
      with (paired_by_name env <$> found st); [reflexivity|].
    apply list_fmap_ext. intros i f Hf%list_elem_of_lookup_2.
    unfold paired_by_name. by rewrite (Hsame f Hf).
Qed.

(** ** The properties of the resolver *)

(** C1. When both overrides are set (a string that is not empty) and
    both files pass the read probe, [resolve] returns exactly the two
    configured strings. Whatever the workspace holds, the trace has no
    directory listing, no look-up below the workspace and no prompt:
    only the two probes and what the toolchain setting adds. *)
Theorem fast_path_precedence env customMap customElf :
  cfg_mapFilePath env = Some customMap →
  cfg_elfFilePath env = Some customElf →
  Js.truthy (Some customMap) = true →
  Js.truthy (Some customElf) = true →
  fs_readable env customMap = true →
  fs_readable env customElf = true →
  ∃ t tc,
    resolve env = Some (EvAccess customMap :: EvAccess customElf :: t,
                        Ok {| map := customMap; elf := customElf;
                              toolchainPath := tc |}) ∧
    getToolchainPath env = (t, Ok tc) ∧
    listed (EvAccess customMap :: EvAccess customElf :: t) = [] ∧
    probed (EvAccess customMap :: EvAccess customElf :: t) = [] ∧
    prompts (EvAccess customMap :: EvAccess customElf :: t) = [].
Proof.
  intros Hm He Htm Hte Hrm Hre.
  destruct (resolve_fast_path env customMap customElf Hm He)
    as (t & tc & Htc & (Hl & Hp & Hq) & Hres).
  { unfold fast_path. rewrite Hm, He, Htm, Hte, Hrm, Hre. done. }
  exists t, tc. split_and!; [done..| | |].
  - exact Hl.
  - exact Hp.
  - exact Hq.
Qed.

Lemma fast_path_precedence_witness :
  ∃ t tc,
    resolve (Sample.with_settings (Some "/cfg/fw.map"%string)
               (Some "/cfg/fw.elf"%string) None
               ["/cfg/fw.map"%string; "/cfg/fw.elf"%string]
               (Sample.host Sample.two_targets))
    = Some (EvAccess "/cfg/fw.map" :: EvAccess "/cfg/fw.elf" :: t,
            Ok {| map := "/cfg/fw.map"; elf := "/cfg/fw.elf";
                  toolchainPath := tc |}) ∧
    getToolchainPath (Sample.with_settings (Some "/cfg/fw.map"%string)
               (Some "/cfg/fw.elf"%string) None
               ["/cfg/fw.map"%string; "/cfg/fw.elf"%string]
               (Sample.host Sample.two_targets)) = (t, Ok tc) ∧
    listed (EvAccess "/cfg/fw.map" :: EvAccess "/cfg/fw.elf" :: t) = [] ∧
    probed (EvAccess "/cfg/fw.map" :: EvAccess "/cfg/fw.elf" :: t) = [] ∧
    prompts (EvAccess "/cfg/fw.map" :: EvAccess "/cfg/fw.elf" :: t) = [].
Proof.
  apply (fast_path_precedence
           (Sample.with_settings (Some "/cfg/fw.map"%string)
              (Some "/cfg/fw.elf"%string) None
              ["/cfg/fw.map"%string; "/cfg/fw.elf"%string]
              (Sample.host Sample.two_targets))
           "/cfg/fw.map" "/cfg/fw.elf"); reflexivity.
Defined.

(** C2. A directory is in the result of [findBuildFolders] exactly when
    the walk listed it and its own listing holds an entry that is not a
    directory and ends in [.elf] and one that ends in [.map]. What lies
    in its subdirectories plays no part. *)
Theorem colocation env root st D :
  findBuildFolders env root = Some st →
  (D ∈ found st ↔
     EvReaddir D ∈ io st ∧
     ∃ entries, fs_dirs env !! D = Some entries ∧
       (∃ e, e ∈ entries ∧ isDirectory e = false ∧
             Js.endsWith (name e) ".elf" = true) ∧
       (∃ e, e ∈ entries ∧ isDirectory e = false ∧
             Js.endsWith (name e) ".map" = true)).
Proof.
  intros Hsc%findBuildFolders_scanned.
  rewrite (sc_found _ _ _ Hsc), elem_of_listed.
  apply and_iff_compat_l. unfold dir_qualifies, qualifies.
  destruct (fs_dirs env !! D) as [entries|].
  - rewrite andb_true_iff, !has_file_with_true. split.
    + intros [Hm He]. by exists entries.
    + intros (? & [= <-] & He & Hm). done.
  - split; [done|]. by intros (? & ? & _).
Qed.

Lemma colocation_witness :
  ∃ st, findBuildFolders (Sample.host Sample.split_pair) "/w" = Some st ∧
    EvReaddir "/w/build" ∈ io st ∧ EvReaddir "/w/build/sub" ∈ io st ∧
    ¬ "/w/build"%string ∈ found st.
Proof.
  eexists. split; [vm_compute; reflexivity|].
  split; [apply elem_of_listed; vm_compute; apply list_elem_of_In; simpl; tauto|].
  split; [apply elem_of_listed; vm_compute; apply list_elem_of_In; simpl; tauto|].
  intros Hin.
  apply (colocation (Sample.host Sample.split_pair) "/w" _ "/w/build")
    in Hin as (_ & entries & Hdir & _ & e & He & Hd & Hm);
    [|vm_compute; reflexivity].
  vm_compute in Hdir. injection Hdir as <-.
  apply list_elem_of_In in He. simpl in He.
  destruct He as [<-|[<-|[]]]; discriminate.
Defined.

(** C3. Where a directory is named like a map, [resolve] does not pair
    files. The folder [/w/build] qualifies: it holds the binary file
    [app.elf] and the map file [x.map]. Its entry [app.map] is a
    directory, so no binary file has a map file of its stem and the
    pairing of the files gives no candidate. The pairing loop reads the
    listing without the types of the entries and collects the candidate
    [app], whose map is the directory. The test of the walk does read
    the types: to it, [app.elf] and the directory alone do not make a
    build folder. *)
Theorem directory_paired_as_map :
  fs_dirs (Sample.host Sample.map_directory) !! "/w/build"%string
    = Some [Sample.file "app.elf"; Sample.dir "app.map";
            Sample.file "x.map"] ∧
  dir_qualifies (Sample.host Sample.map_directory) "/w/build" = true ∧
  qualifies [Sample.file "app.elf"; Sample.dir "app.map"] = false ∧
  spec_pair_files (Sample.host Sample.map_directory) "/w/build" = [] ∧
  collect_items (Sample.host Sample.map_directory) ["/w/build"%string] []
  = ([EvReaddir "/w/build"],
     Ok [ {| label := "$(file-binary) app"; detail := "/w/build";
             item_elf := "/w/build/app.elf";
             item_map := "/w/build/app.map" |} ]).
Proof. split_and!; vm_compute; reflexivity. Qed.

(** C4. [findBuildFolders] always returns. It probes the six
    conventional subdirectories of the root in the order build, Build,
    Release, Debug, out, output and its sets are those obtained by
    walking, in that order, the ones that exist and then, only if no
    folder was recorded, the root: the root is walked after the pass
    exactly when the pass recorded nothing (and then it is listed,
    unless its key was already visited). *)
Theorem prioritized_then_fallback env root :
  ∃ pass st st_spec,
    walk_common env (walk_fuel env)
      [path_join env root "build"; path_join env root "Build";
       path_join env root "Release"; path_join env root "Debug";
       path_join env root "out"; path_join env root "output"]
      init_state = Some pass ∧
    findBuildFolders env root = Some st ∧
    spec_find_matching_folders env (walk_fuel env) root = Some st_spec ∧
    same_sets st st_spec ∧
    probed (io st)
      = [path_join env root "build"; path_join env root "Build";
         path_join env root "Release"; path_join env root "Debug";
         path_join env root "out"; path_join env root "output"] ∧
    (found pass = [] → walk env (walk_fuel env) root pass = Some st) ∧
    (found pass ≠ [] → st = pass) ∧
    (dir_key env root ∉ visited pass →
       (EvReaddir root ∈ io st ↔ found pass = [])).
Proof.
  destruct (walk_common_total env (common_dirs env root) init_state)
    as [pass Hpass].
  destruct (walk_common_each env _ _ _ init_state _ Hpass (same_sets_refl _))
    as (pass_spec & Hspec & Hsame & Hprobed).
  change (common_dirs env root) with
    [path_join env root "build"; path_join env root "Build";
     path_join env root "Release"; path_join env root "Debug";
     path_join env root "out"; path_join env root "output"] in *.
  unfold findBuildFolders, findBuildFolders_state, spec_find_matching_folders.
  change (common_dirs env root) with
    [path_join env root "build"; path_join env root "Build";
     path_join env root "Release"; path_join env root "Debug";
     path_join env root "out"; path_join env root "output"].
  rewrite Hpass, Hspec. exists pass.
  destruct Hsame as (Hv & Hf & Hl). rewrite <- Hf.
  destruct (found pass) as [|f l] eqn:Hfound; simpl.
  - destruct (walk_total env root pass) as [st Hst].
    destruct (walk_same_sets env _ _ _ pass_spec _ Hst) as (st_spec & Hst' & Hs').
    { split_and!; [done| |done]. by rewrite Hfound. }
    exists st, st_spec. split_and!; [done..| | | |].
    + apply walk_post in Hst as (new & [Tio _ _ _ _ _] & _).
      by rewrite Tio, probed_app, probed_readdir, app_nil_r.
    + done.
    + done.
    + intros Hvis. split; [done|]. intros _. by eapply walk_lists_start.
  - exists pass, pass_spec. split_and!; [done..| |done|done| |].
    + split_and!; [done| |done]. by rewrite Hfound.
    + done.
    + intros Hvis. split; [|done]. intros Hin%elem_of_listed.
      exfalso. apply Hvis.
      assert (scanned env (common_dirs env root) pass) as Hsc.
      { eapply walk_common_scanned; [|apply scanned_init|exact Hpass]. done. }
      rewrite (sc_visited _ _ _ Hsc). apply elem_of_list_to_set.
      by apply list_elem_of_fmap_2.
Qed.

(** C5. The identity of a directory is its key and nothing else: its
    path, in lower case on the platforms taken to ignore case. One call
    of [walk] lists directories whose keys differ from one another and
    from every key visited before, and what it records is among them.
    So in one run of [findBuildFolders], with all the walks it starts
    on the same two sets, the directories listed have pairwise
    different keys, none is traversed or counted twice, and the folders
    recorded have pairwise different keys too: of two paths with one
    key at most one is recorded. Two paths with different keys are two
    directories to the walk, also when one is a symbolic link to the
    other. *)
Theorem no_retraversal env :
  (∀ fuel dir st0 st',
     walk env fuel dir st0 = Some st' →
     ∃ new,
       io st' = io st0 ++ (EvReaddir <$> new) ∧
       NoDup (dir_key env <$> new) ∧
       (∀ p, p ∈ new → dir_key env p ∉ visited st0) ∧
       visited st' = list_to_set (dir_key env <$> new) ∪ visited st0 ∧
       (∀ d, d ∈ found st' → d ∈ found st0 ∨ d ∈ new)) ∧
  (∀ root st,
     findBuildFolders env root = Some st →
     NoDup (dir_key env <$> listed (io st)) ∧
     NoDup (dir_key env <$> found st) ∧
     (∀ p q, p ∈ found st → q ∈ found st →
        dir_key env p = dir_key env q → p = q)).
Proof.
  split.
  - intros fuel dir st0 st' (new & [Tio Tv Tf Tn Td Tu] & _)%walk_post.
    exists new. split_and!; [done..|].
    intros d [?|[? _]]%Td; [by left|by right].
  - intros root st [Hv Hn Hf Hu Hq Hr]%findBuildFolders_scanned.
    assert (NoDup (dir_key env <$> found st)) as Hkeys.
    { eapply NoDup_fmap_sub; [done| |done].
      intros d Hd. by apply Hf in Hd as [? _]. }
    split_and!; [done..|].
    intros p q Hp Hq' Hk. by eapply NoDup_fmap_inj_on.
Qed.

Lemma no_retraversal_witness :
  ∃ st,
    findBuildFolders
      (Sample.with_platform "darwin" (Sample.host Sample.same_folder_twice))
      "/w" = Some st ∧
    found st = ["/w/build"%string] ∧
    listed (io st) = ["/w/build"%string] ∧
    NoDup (dir_key (Sample.with_platform "darwin"
                      (Sample.host Sample.same_folder_twice))
             <$> found st).
Proof.
  eexists. split; [vm_compute; reflexivity|].
  split; [reflexivity|]. split; [reflexivity|].
  apply (proj2 (no_retraversal
                  (Sample.with_platform "darwin"
                     (Sample.host Sample.same_folder_twice))) "/w").
  vm_compute. reflexivity.
Defined.

(** Keys are all that is compared. When the conventional subdirectory
    [/w/build] is a symbolic link to [/w/Debug], both paths exist and
    their keys differ, so the one directory behind them is listed twice
    and recorded twice, once under each path. *)
Lemma linked_directory_recorded_twice :
  follows_links (Sample.host Sample.linked_twin) Sample.twin_links ∧
  Sample.symlink "build"
    ∈ default [] (fs_dirs (Sample.host Sample.linked_twin) !! "/w"%string) ∧
  ∃ st,
    findBuildFolders (Sample.host Sample.linked_twin) "/w" = Some st ∧
    listed (io st) = ["/w/build"%string; "/w/Debug"%string] ∧
    found st = ["/w/build"%string; "/w/Debug"%string] ∧
    real_dir Sample.twin_links "/w/build" = "/w/Debug"%string ∧
    real_dir Sample.twin_links "/w/Debug" = "/w/Debug"%string ∧
    ¬ NoDup (real_dir Sample.twin_links <$> found st).
Proof.
  split_and!.
  - unfold Sample.twin_links. intros l t [<- <-]%lookup_singleton_Some.
    split; vm_compute; reflexivity.
  - vm_compute. apply list_elem_of_In. simpl. tauto.
  - eexists. split; [vm_compute; reflexivity|].
    split_and!; [reflexivity..|].
    vm_compute. intros [Hin _]%NoDup_cons. apply Hin. by left.
Qed.

(** C6. Outside the fast path and with a workspace, let the candidates
    be the items collected from the found folders. A single candidate
    is returned without any prompt (it is the first one collected, the
    default of the selection). With more than one, exactly one prompt
    is shown and it lists all of them; a dismissed prompt makes
    [resolve] throw "Selection cancelled", and the picked item gives the
    result otherwise. *)
Theorem candidate_selection env root rest :
  fast_path env = false →
  workspaceFolders env = Some (root :: rest) →
  ∃ st t r,
    findBuildFolders env root = Some st ∧
    collect_items env (found st) []
      = (EvReaddir <$> found st, Ok (candidates env st)) ∧
    resolve env = Some (t, r) ∧
    (∀ c, candidates env st = [c] →
       prompts t = [] ∧
       ∃ tc, r = Ok {| map := item_map c; elf := item_elf c;
                       toolchainPath := tc |}) ∧
    (1 < List.length (candidates env st) →
       prompts t = [candidates env st] ∧
       (quickPick env (candidates env st) = None →
          r = Throw SelectionCancelled) ∧
       (∀ pick, quickPick env (candidates env st) = Some pick →
          ∃ tc, r = Ok {| map := item_map pick; elf := item_elf pick;
                          toolchainPath := tc |})).
Proof.
  intros Hfast Hws.
  destruct (resolve_search_outcome env root rest Hfast Hws)
    as (st & t & r & Hst & Hres & Hout).
  exists st, t, r. split_and!; [done| |done|..].
  - rewrite collect_items_spec; [done|].
    intros d Hd. eapply dir_qualifies_listable, found_qualifies; done.
  - intros c Hc. unfold search_outcome in Hout. rewrite Hc in Hout.
    destruct (found st) as [|f l] eqn:Hfound.
    { unfold candidates in Hc. by rewrite Hfound in Hc. }
    destruct Hout as (Hp & t' & tc & _ & ->). eauto.
  - intros Hlen. unfold search_outcome in Hout.
    destruct (found st) as [|f l] eqn:Hfound.
    { unfold candidates in Hlen. rewrite Hfound in Hlen. simpl in Hlen. lia. }
    destruct (candidates env st) as [|c [|c2 items]]; simpl in Hlen; [lia..|].
    destruct Hout as [Hp Hout]. split_and!; [done|..].
    + intros Hq. by rewrite Hq in Hout.
    + intros pick Hq. rewrite Hq in Hout.
      destruct Hout as (t' & tc & _ & ->). eauto.
Qed.

Lemma candidate_selection_witness :
  ∃ t, resolve Sample.cancelling = Some (t, Throw SelectionCancelled) ∧
    prompts t
    = [[ {| label := "$(file-binary) app"; detail := "/w/build/Debug";
            item_elf := "/w/build/Debug/app.elf";
            item_map := "/w/build/Debug/app.map" |};
         {| label := "$(file-binary) b"; detail := "/w/build/Debug";
            item_elf := "/w/build/Debug/b.elf";
            item_map := "/w/build/Debug/b.map" |} ]].
Proof.
  destruct (candidate_selection Sample.cancelling "/w" [] eq_refl eq_refl)
    as (st & t & r & Hst & _ & Hres & _ & Hmany).
  vm_compute in Hst. injection Hst as <-.
  destruct Hmany as (Hp & Hcancel & _); [vm_compute; lia|].
  exists t. rewrite Hres, (Hcancel eq_refl). split; [reflexivity|].
  rewrite Hp. vm_compute. reflexivity.
Defined.

(** C7. With the same directory named like a map, [resolve] does not
    throw "No matching .elf and .map files found" although the walk
    recorded a folder, [/w/build], and no recorded folder holds a
    binary file and a map file of one stem: it returns the binary
    [app.elf] with, as its map, the directory [app.map]. *)
Theorem directory_returned_as_map :
  ∃ st,
    findBuildFolders (Sample.host Sample.map_directory) "/w" = Some st ∧
    found st = ["/w/build"%string] ∧
    (∀ d, d ∈ found st →
       ¬ has_file_pair (Sample.host Sample.map_directory) d) ∧
    Sample.dir "app.map"
      ∈ default [] (fs_dirs (Sample.host Sample.map_directory)
                      !! "/w/build"%string) ∧
    resolve (Sample.host Sample.map_directory)
    = Some ([EvExistsSync "/w/build"; EvReaddir "/w/build";
             EvReaddir "/w/build/app.map"; EvExistsSync "/w/Build";
             EvExistsSync "/w/Release"; EvExistsSync "/w/Debug";
             EvExistsSync "/w/out"; EvExistsSync "/w/output";
             EvReaddir "/w/build"],
            Ok {| map := "/w/build/app.map"; elf := "/w/build/app.elf";
                  toolchainPath := None |}).
Proof.
  eexists. split; [vm_compute; reflexivity|].
  split; [reflexivity|]. split_and!.
  - intros d Hd%list_elem_of_singleton Hp%spec_pair_files_nonempty.
    subst d. apply Hp. vm_compute. reflexivity.
  - vm_compute. apply list_elem_of_In. simpl. tauto.
  - vm_compute. reflexivity.
Qed.

(** C8. A directory whose listing throws is to the walk what an empty
    directory is: the call of [walk] on it returns, having marked it
    visited and recorded nothing, and [findBuildFolders] and [resolve]
    give what they give when the directory is empty, trace included. So
    whatever is found beside or above it without the failure is found
    with it. Neither ever fails on a listing: [findBuildFolders] always
    returns and no error of [resolve] comes from reading a directory. *)
Theorem walk_failure_contained env d :
  fs_dirs env !! d = None →
  (∀ fuel st, dir_key env d ∉ visited st →
     walk env (S fuel) d st
     = Some (emit (EvReaddir d) (mark_visited (dir_key env d) st))) ∧
  (∀ root, is_Some (findBuildFolders env root) ∧
     findBuildFolders env root
     = findBuildFolders (set_dirs (<[d:=[]]> (fs_dirs env)) env) root) ∧
  resolve env = resolve (set_dirs (<[d:=[]]> (fs_dirs env)) env) ∧
  is_Some (resolve env) ∧
  (∀ t e p, resolve env = Some (t, Throw e) → e ≠ ReaddirFailed p).
Proof.
  intros Hd. split_and!.
  - intros fuel st Hvis. simpl. rewrite bool_decide_false by done.
    by rewrite Hd.
  - intros root. split; [apply findBuildFolders_total|].
    by rewrite findBuildFolders_set_dirs_empty.
  - by rewrite resolve_set_dirs_empty.
  - apply resolve_total.
  - intros t e p Hres ->. apply resolve_throws in Hres.
    destruct Hres as [?|[?|[?|?]]]; discriminate.
Qed.

Lemma walk_failure_contained_witness :
  fs_dirs (Sample.with_user head (Sample.host Sample.one_locked))
    !! "/w/build/locked"%string = None ∧
  (∃ st, findBuildFolders (Sample.with_user head (Sample.host Sample.one_locked))
           "/w" = Some st ∧
     found st = ["/w/build/ok"%string; "/w/build"%string] ∧
     EvReaddir "/w/build/locked" ∈ io st) ∧
  verdict (resolve (Sample.with_user head (Sample.host Sample.one_locked)))
    = Some (Ok ("/w/build/ok/app.map"%string, "/w/build/ok/app.elf"%string)) ∧
  resolve (Sample.with_user head (Sample.host Sample.one_locked))
  = resolve (set_dirs (<["/w/build/locked"%string := []]> Sample.one_locked)
               (Sample.with_user head (Sample.host Sample.one_locked))).
Proof.
  destruct (walk_failure_contained
              (Sample.with_user head (Sample.host Sample.one_locked))
              "/w/build/locked") as (_ & _ & Hres & _ & _).
  { vm_compute. reflexivity. }
  split; [vm_compute; reflexivity|].
  split.
  - eexists. split; [vm_compute; reflexivity|].
    split; [reflexivity|].
    apply elem_of_listed. vm_compute. apply list_elem_of_In. simpl. tauto.
  - split; [vm_compute; reflexivity|]. exact Hres.
Defined.

(** C9. The toolchain setting is resolved without ever throwing: a
    setting that is absent (or empty) is dropped with no notification, a
    path that fails the read probe gives one warning and no toolchain, a
    path that passes gives one informational notice and is returned.
    The result of [getToolchainPath] is the toolchain field of every
    successful [resolve], and whether [resolve] succeeds, and with which
    map and binary, does not depend on the setting. *)
Theorem toolchain_never_fails env :
  (∃ t tc, getToolchainPath env = (t, Ok tc) ∧
     (Js.truthy (cfg_toolchainPath env) = false → t = [] ∧ tc = None) ∧
     (∀ p, cfg_toolchainPath env = Some p → Js.truthy (Some p) = true →
        fs_readable env p = false →
        t = [EvAccess p;
             EvWarningMessage
               ("STM32 Build Analyzer: toolchainPath not found: " ++ p)%string]
        ∧ tc = None) ∧
     (∀ p, cfg_toolchainPath env = Some p → Js.truthy (Some p) = true →
        fs_readable env p = true →
        t = [EvAccess p;
             EvInformationMessage
               ("STM32 Build Analyzer: Using toolchain from " ++ p)%string]
        ∧ tc = Some p) ∧
     (∀ t' paths, resolve env = Some (t', Ok paths) →
        toolchainPath paths = tc)) ∧
  (∀ tp, verdict (resolve (set_toolchain tp env)) = verdict (resolve env)).
Proof.
  split; [|intros tp; apply verdict_set_toolchain].
  destruct (getToolchainPath_ok env) as (t & tc & Htc & _).
  exists t, tc. split_and!; [done|..].
  - unfold getToolchainPath in Htc. intros Hf.
    unfold ret in Htc.
    destruct (cfg_toolchainPath env) as [p|]; [|by simplify_eq].
    rewrite Hf in Htc. by simplify_eq.
  - unfold getToolchainPath in Htc. intros p Hp Ht Hr.
    rewrite Hp, Ht in Htc. unfold exists_, bind, tell, ret in Htc.
    rewrite Hr in Htc. simpl in Htc. by simplify_eq.
  - unfold getToolchainPath in Htc. intros p Hp Ht Hr.
    rewrite Hp, Ht in Htc. unfold exists_, bind, tell, ret in Htc.
    rewrite Hr in Htc. simpl in Htc. by simplify_eq.
  - intros t' paths Hres. destruct (fast_path env) eqn:Hfast.
    + pose proof Hfast as Hf. unfold fast_path in Hf.
      destruct (cfg_mapFilePath env) as [m|] eqn:Hm; [|done].
      destruct (cfg_elfFilePath env) as [e|] eqn:He; [|done].
      destruct (resolve_fast_path env m e) as (t1 & tc1 & Htc1 & _ & Hres1);
        [done..|].
      rewrite Hres in Hres1. rewrite Htc in Htc1. by simplify_eq.
    + destruct (workspaceFolders env) as [[|root rest]|] eqn:Hws.
      * destruct (resolve_no_workspace env) as [t1 Hres1]; [done|by right|].
        congruence.
      * destruct (resolve_search_outcome env root rest Hfast Hws)
          as (st & t1 & r & Hst & Hres1 & Hout).
        rewrite Hres in Hres1. simplify_eq. unfold search_outcome in Hout.
        destruct (found st); [by destruct Hout|].
        destruct (candidates env st) as [|c [|c2 items]].
        -- by destruct Hout.
        -- destruct Hout as (_ & ? & ? & Htc1 & ?).
           rewrite Htc in Htc1. by simplify_eq.
        -- destruct Hout as [_ Hout].
           destruct (quickPick env _); [|done].
           destruct Hout as (? & ? & Htc1 & ?).
           rewrite Htc in Htc1. by simplify_eq.
      * destruct (resolve_no_workspace env) as [t1 Hres1]; [done|by left|].
        congruence.
Qed.

Lemma toolchain_never_fails_witness :
  ∃ t tc,
    getToolchainPath
      (Sample.with_settings None None (Some "/opt/gcc"%string) []
         (Sample.host Sample.one_target)) = (t, Ok tc) ∧
    t = [EvAccess "/opt/gcc";
         EvWarningMessage
           "STM32 Build Analyzer: toolchainPath not found: /opt/gcc"] ∧
    tc = None ∧
    verdict (resolve (Sample.with_settings None None (Some "/opt/gcc"%string)
                        [] (Sample.host Sample.one_target)))
    = Some (Ok ("/w/out/app.map"%string, "/w/out/app.elf"%string)).
Proof.
  destruct (toolchain_never_fails
              (Sample.with_settings None None (Some "/opt/gcc"%string) []
                 (Sample.host Sample.one_target)))
    as [(t & tc & Htc & _ & Hwarn & _) _].
  exists t, tc. split; [exact Htc|].
  destruct (Hwarn "/opt/gcc"%string) as [Ht Hnone]; [reflexivity..|].
  split; [exact Ht|]. split; [exact Hnone|]. vm_compute. reflexivity.
Defined.

(** C10. One call of [walk] lists, and records, only its start and
    what lies below it through entries whose type is a real directory:
    an entry of any other type, a symbolic link among them, is never
    entered, so a directory that is below the start only through a link
    is neither listed nor recorded. The name of a link still counts as
    that of a file: in a directory listed by this walk, a link whose name
    ends in [.map] (or [.elf]) stands for the map (the binary) in the
    test that records the directory. The start of a walk is not an
    entry of a listing: it is listed as it is given, also when it is a
    symbolic link that the host follows. So for [findBuildFolders] as a
    whole, what is listed and recorded lies below the root or below
    one of its six conventional subdirectories through real
    directories, whatever these seven paths are themselves. *)
Theorem walker_ignores_symlinks env :
  (∀ fuel start st st',
     walk env fuel start st = Some st' →
     (∀ p, EvReaddir p ∈ io st' →
        EvReaddir p ∈ io st ∨ reaches env start p) ∧
     (∀ p, p ∈ found st' → p ∈ found st ∨ reaches env start p) ∧
     (∀ d entries e,
        EvReaddir d ∈ io st' → ¬ EvReaddir d ∈ io st →
        fs_dirs env !! d = Some entries →
        e ∈ entries → kind e = KSymbolicLink →
        (Js.endsWith (name e) ".map" = true →
         has_file_with ".elf" entries = true → d ∈ found st') ∧
        (Js.endsWith (name e) ".elf" = true →
         has_file_with ".map" entries = true → d ∈ found st'))) ∧
  (∀ root st p,
     findBuildFolders env root = Some st →
     EvReaddir p ∈ io st ∨ p ∈ found st →
     ∃ start, start ∈ root :: common_dirs env root ∧ reaches env start p).
Proof.
  split.
  - intros fuel start st st' (new & [Tio Tv Tf Tn Td Tu] & Hr)%walk_post.
    rewrite Forall_forall in Hr.
    assert (∀ p, EvReaddir p ∈ io st' → EvReaddir p ∈ io st ∨ p ∈ new)
      as Hnew.
    { intros p. rewrite Tio, elem_of_app, list_elem_of_fmap.
      intros [?|(q & [= ->] & ?)]; [by left|by right]. }
    split_and!.
    + intros p [?|?]%Hnew; [by left|right; by apply Hr].
    + intros p [?|[? _]]%Td; [by left|right; by apply Hr].
    + intros d entries e Hd Hnd Hdir He Hk.
      destruct (Hnew d Hd) as [?|Hin]; [done|].
      assert (isDirectory e = false) as Hfile
        by (unfold isDirectory; by rewrite Hk).
      split; intros Hext Hother; apply Td; right; (split; [done|]);
        unfold dir_qualifies, qualifies; rewrite Hdir, Hother;
        [rewrite andb_true_r | rewrite andb_true_l];
        apply has_file_with_true; by exists e.
  - intros root st p [Hv Hn Hf Hu Hq Hr]%findBuildFolders_scanned Hp.
    rewrite Forall_forall in Hr. apply Hr.
    destruct Hp as [Hp|Hp]; [by apply elem_of_listed|].
    by apply Hf in Hp as [? _].
Qed.

Lemma walker_ignores_symlinks_witness :
  ∃ st',
    walk (Sample.host Sample.linked) 3 "/w/build" init_state = Some st' ∧
    found st' = ["/w/build"%string] ∧
    io st' = [EvReaddir "/w/build"] ∧
    fs_dirs (Sample.host Sample.linked) !! "/w/build/link"%string
      = Some [Sample.file "app.elf"; Sample.file "app.map"] ∧
    ∀ p, p ∈ found st' → reaches (Sample.host Sample.linked) "/w/build" p.
Proof.
  eexists. split; [vm_compute; reflexivity|].
  split; [reflexivity|]. split; [reflexivity|].
  split; [vm_compute; reflexivity|].
  intros p Hp.
  destruct (proj1 (walker_ignores_symlinks (Sample.host Sample.linked))
              3 "/w/build" init_state _ ltac:(vm_compute; reflexivity))
    as (_ & Hfound & _).
  destruct (Hfound p Hp) as [Hnil|Hreach]; [|exact Hreach].
  simpl in Hnil. by apply elem_of_nil in Hnil.
Defined.

(** A start that is a link is followed. The only entry of the root
    [/w] is the symbolic link [build], so nothing but [/w] itself is
    reached from the root through real directories; still
    [findBuildFolders] walks the conventional path [/w/build], lists
    the directory behind the link and records it. *)
Lemma linked_start_is_walked :
  fs_dirs (Sample.host Sample.linked_root_entry) !! "/w"%string
    = Some [Sample.symlink "build"] ∧
  ¬ reaches (Sample.host Sample.linked_root_entry) "/w" "/w/build" ∧
  ∃ st,
    findBuildFolders (Sample.host Sample.linked_root_entry) "/w" = Some st ∧
    listed (io st) = ["/w/build"%string] ∧
    found st = ["/w/build"%string].
Proof.
  split_and!.
  - vm_compute. reflexivity.
  - assert (∀ p, reaches (Sample.host Sample.linked_root_entry) "/w" p →
                 p = "/w"%string) as Honly.
    { induction 1 as [|d e entries _ -> Hdir He Hd]; [done|].
      vm_compute in Hdir. injection Hdir as <-.
      apply list_elem_of_singleton in He. subst e. discriminate Hd. }
    intros Hr%Honly. discriminate Hr.
  - eexists. split; [vm_compute; reflexivity|]. split; reflexivity.
Qed.

(** ** Further properties of [resolve] *)

Lemma paired_by_name_congr env1 env2 folder :
  fs_dirs env1 = fs_dirs env2 → path_join env1 = path_join env2 →
  asRelativePath env1 = asRelativePath env2 →
  paired_by_name env1 folder = paired_by_name env2 folder.
Proof.
  intros Hd Hj Hr. unfold paired_by_name. rewrite Hd.
  destruct (fs_dirs env2 !! folder); [|done].
  apply list_fmap_ext. intros i f _. unfold candidate. by rewrite Hj, Hr.
Qed.

(** The search after the walk looks at the listings, at [path.join],
    at [asRelativePath], at the toolchain setting, at the read probe and
    at the answer of the user, and at nothing else. *)
Lemma resolve_search_congr env1 env2 st :
  (∀ f, f ∈ found st → is_Some (fs_dirs env1 !! f)) →
  fs_dirs env1 = fs_dirs env2 → path_join env1 = path_join env2 →
  asRelativePath env1 = asRelativePath env2 →
  cfg_toolchainPath env1 = cfg_toolchainPath env2 →
  fs_readable env1 = fs_readable env2 →
  quickPick env1 = quickPick env2 →
  resolve_search env1 st = resolve_search env2 st.
Proof.
  intros Hlist Hd Hj Hr Htc Hread Hq. unfold resolve_search.
  rewrite (collect_items_spec env1), (collect_items_spec env2); first last.
  - done.
  - intros f Hf. rewrite <- Hd. by apply Hlist.
  - replace (paired_by_name env1 <$> found st)
      with (paired_by_name env2 <$> found st).
    + unfold select, finish, getToolchainPath, exists_.
      by rewrite Hq, Htc, Hread.
    + apply list_fmap_ext. intros i f _. symmetry.
      by apply paired_by_name_congr.
Qed.

Lemma found_listable env root st :
  findBuildFolders env root = Some st →
  ∀ f, f ∈ found st → is_Some (fs_dirs env !! f).
Proof.
  intros Hst f Hf. eapply dir_qualifies_listable, found_qualifies; done.
Qed.

(** The walk emits listings and probes only. *)
Lemma walk_common_filter env fuel (keep : Event → bool) :
  (∀ p, keep (EvReaddir p) = false) → (∀ p, keep (EvExistsSync p) = false) →
  ∀ common st st',
    walk_common env fuel common st = Some st' →
    List.filter keep (io st') = List.filter keep (io st).
Proof.
  intros Hr He.
  assert (∀ new, List.filter keep (EvReaddir <$> new) = []) as Hnew.
  { induction new as [|p new IH]; [done|]. simpl. by rewrite Hr. }
  assert (∀ d st st', walk env fuel d st = Some st' →
            List.filter keep (io st') = List.filter keep (io st)) as Hwalk.
  { intros d st st' (new & [Tio _ _ _ _ _] & _)%walk_post.
    by rewrite Tio, List.filter_app, Hnew, app_nil_r. }
  induction common as [|c rest IH]; intros st st' H; simpl in H.
  { by simplify_eq. }
  assert (List.filter keep (io (emit (EvExistsSync c) st))
          = List.filter keep (io st)) as Hemit.
  { simpl. rewrite List.filter_app. simpl. by rewrite He, app_nil_r. }
  destruct (fs_existsSync env c).
  - destruct (walk env fuel c _) as [st1|] eqn:Hw; [|done].
    rewrite (IH _ _ H), (Hwalk _ _ _ Hw). done.
  - by rewrite (IH _ _ H).
Qed.

Lemma findBuildFolders_filter env root st (keep : Event → bool) :
  (∀ p, keep (EvReaddir p) = false) → (∀ p, keep (EvExistsSync p) = false) →
  findBuildFolders env root = Some st → List.filter keep (io st) = [].
Proof.
  intros Hr He. unfold findBuildFolders, findBuildFolders_state. intros H.
  destruct (walk_common env _ _ _) as [pass|] eqn:Hpass; [|done].
  apply (walk_common_filter env _ keep Hr He) in Hpass. simpl in Hpass.
  destruct (List.length (found pass) =? 0); [|simplify_eq; exact Hpass].
  apply walk_post in H as (new & [Tio _ _ _ _ _] & _).
  rewrite Tio, List.filter_app, Hpass, app_nil_l. clear Tio.
  induction new as [|p new IH]; [done|]. simpl. by rewrite Hr.
Qed.

Lemma custom_paths_events env :
  ∃ t r, custom_paths env = (t, Ok r) ∧
    Forall (fun e => ∃ p, e = EvAccess p) t ∧ List.length t ≤ 2.
Proof.
  assert (∀ r : option (string * string),
            ∃ t r', (([], Ok r) : M _) = (t, Ok r') ∧
              Forall (fun e => ∃ p, e = EvAccess p) t ∧ List.length t ≤ 2)
    as Hnil.
  { intros r. exists [], r. split; [done|]. split; [constructor|simpl; lia]. }
  unfold custom_paths.
  destruct (cfg_mapFilePath env) as [m|]; [|apply Hnil].
  destruct (cfg_elfFilePath env) as [e|]; [|apply Hnil].
  destruct (_ && _); [|apply Hnil].
  unfold exists_, bind, tell, ret. simpl.
  destruct (fs_readable env m); simpl.
  - eexists _, _. split; [done|]. split; [|simpl; lia].
    repeat constructor; eauto.
  - eexists _, _. split; [done|]. split; [|simpl; lia].
    repeat constructor; eauto.
Qed.

Lemma notifications_app t1 t2 :
  notifications (t1 ++ t2) = notifications t1 ++ notifications t2.
Proof. apply List.filter_app. Qed.

Lemma notifications_access t :
  Forall (fun e => ∃ p, e = EvAccess p) t → notifications t = [].
Proof.
  induction 1 as [|e t [p ->] _ IH]; [done|]. simpl. exact IH.
Qed.

Lemma notifications_readdir new : notifications (EvReaddir <$> new) = [].
Proof. induction new as [|p new IH]; [done|]. exact IH. Qed.

Lemma getToolchainPath_notifies env t tc :
  getToolchainPath env = (t, Ok tc) → List.length (notifications t) ≤ 1.
Proof.
  unfold getToolchainPath. destruct (cfg_toolchainPath env) as [p|].
  - destruct (Js.truthy (Some p)); [|intros [= <- _]; simpl; lia].
    unfold exists_, bind, tell, ret. destruct (fs_readable env p); simpl;
      intros [= <- _]; simpl; lia.
  - intros [= <- _]. simpl. lia.
Qed.

(** The trace of a run of [resolve], split at the point where the
    toolchain is resolved. *)
Lemma resolve_trace env t r :
  resolve env = Some (t, r) →
  match r with
  | Throw _ => notifications t = []
  | Ok paths =>
    ∃ t1 t2, t = t1 ++ t2 ∧ notifications t1 = [] ∧
      getToolchainPath env = (t2, Ok (toolchainPath paths))
  end.
Proof.
  unfold resolve.
  destruct (custom_paths_events env) as (t0 & r0 & Hcp & Hacc & _).
  rewrite Hcp. apply notifications_access in Hacc.
  destruct r0 as [[m e]|].
  - destruct (finish_ok env m e) as (t2 & tc & Htc & Hfin).
    unfold bind. rewrite Hfin. intros [= <- <-]. by exists t0, t2.
  - destruct (workspaceFolders env) as [[|root rest]|];
      [by intros [= <- <-]| |by intros [= <- <-]].
    destruct (findBuildFolders env root) as [st|] eqn:Hst; [|done].
    pose proof (findBuildFolders_filter env root st is_notification
                  ltac:(done) ltac:(done) Hst) as Hio.
    fold (notifications (io st)) in Hio.
    erewrite resolve_search_spec by done. unfold search_result.
    destruct (found st) as [|f l].
    { intros [= <- <-]. by rewrite notifications_app, Hacc, Hio. }
    assert (notifications (t0 ++ io st ++ (EvReaddir <$> f :: l)) = []) as Hpre.
    { by rewrite !notifications_app, Hacc, Hio, notifications_readdir. }
    generalize dependent (t0 ++ io st ++ (EvReaddir <$> f :: l)).
    intros pre Hpre.
    destruct (candidates env st) as [|c items]; [by intros [= <- <-]|].
    unfold select. destruct (1 <? _).
    + destruct (quickPick env (c :: items)) as [pick|].
      * destruct (finish_ok env (item_map pick) (item_elf pick))
          as (t2 & tc & Htc & Hfin).
        unfold bind, tell, ret. rewrite Hfin. intros [= <- <-].
        exists (pre ++ [EvQuickPick (c :: items)]), t2. split_and!; [|..|done].
        -- by rewrite <- !app_assoc.
        -- by rewrite notifications_app, Hpre.
      * unfold bind, tell, throw. intros [= <- <-].
        by rewrite notifications_app, Hpre.
    + destruct (finish_ok env (item_map c) (item_elf c))
        as (t2 & tc & Htc & Hfin).
      unfold bind, ret. rewrite Hfin. intros [= <- <-].
      exists pre, t2. by split_and!.
Qed.

(** X1. [resolve] throws "No workspace folder open" exactly when the
    fast path is not taken and the workspace folders are undefined or
    empty; it has then listed no directory, probed nothing below a
    workspace, asked nothing and notified nothing. *)
Theorem no_workspace_error env :
  (fast_path env = false ∧
   (workspaceFolders env = None ∨ workspaceFolders env = Some [])) ↔
  ∃ t, resolve env = Some (t, Throw NoWorkspaceFolderOpen) ∧
    quiet t ∧ notifications t = [].
Proof.
  split.
  - intros [Hfast Hws].
    destruct (custom_paths_not_taken env Hfast) as (t0 & Hcp & Hq).
    exists t0. split_and!; [|done|].
    + unfold resolve. rewrite Hcp. by destruct Hws as [-> | ->].
    + destruct (custom_paths_events env) as (t & r & Hcp' & Hacc & _).
      rewrite Hcp in Hcp'. simplify_eq. by apply notifications_access.
  - intros (t & Hres & _). destruct (fast_path env) eqn:Hfast.
    { destruct (resolve_fast env Hfast) as (? & ? & ? & ? & _ & _ & Hok).
      congruence. }
    split; [done|].
    destruct (workspaceFolders env) as [[|root rest]|] eqn:Hws; [by right| |by left].
    exfalso.
    destruct (resolve_search_outcome env root rest Hfast Hws)
      as (st & t1 & r & Hst & Hres1 & Hout).
    rewrite Hres in Hres1. simplify_eq. unfold search_outcome in Hout.
    destruct (found st); [by destruct Hout|].
    destruct (candidates env st) as [|c [|c2 items]].
    + by destruct Hout.
    + by destruct Hout as (_ & ? & ? & _ & ?).
    + destruct Hout as [_ Hout]. destruct (quickPick env _); [|done].
      by destruct Hout as (? & ? & _ & ?).
Qed.



(** X3. Overrides that do not take the fast path (one of them unset
    or empty, or one of the files not readable) are ignored without an
    error: [resolve] does what it does with no override at all, after
    at most two read probes. *)
Theorem unusable_overrides_ignored env :
  fast_path env = false →
  ∃ t0 t r,
    custom_paths env = (t0, Ok None) ∧
    Forall (fun e => ∃ p, e = EvAccess p) t0 ∧ List.length t0 ≤ 2 ∧
    resolve (clear_overrides env) = Some (t, r) ∧
    resolve env = Some (t0 ++ t, r).
Proof.
  intros Hfast.
  destruct (custom_paths_not_taken env Hfast) as (t0 & Hcp & _).
  destruct (custom_paths_events env) as (t0' & r0 & Hcp' & Hacc & Hlen).
  rewrite Hcp in Hcp'. simplify_eq.
  destruct (resolve_total (clear_overrides env)) as [[t r] Hclear].
  exists t0', t, r. split_and!; [done..|].
  revert Hclear. set (env' := clear_overrides env).
  unfold resolve. rewrite Hcp.
  change (custom_paths env') with (([], Ok None) : M (option (string * string))).
  change (workspaceFolders env') with (workspaceFolders env).
  destruct (workspaceFolders env) as [[|root rest]|];
    [intros [= <- <-]; by rewrite app_nil_r| |
     intros [= <- <-]; by rewrite app_nil_r].
  rewrite (findBuildFolders_ext env' env) by done.
  destruct (findBuildFolders env root) as [st|] eqn:Hst; [|done].
  rewrite (resolve_search_congr env' env); try done;
    [|by eapply found_listable].
  destruct (resolve_search env st) as [ts rs]. unfold bind.
  destruct rs; intros [= <- <-]; by rewrite <- ?app_assoc.
Qed.

Lemma unusable_overrides_ignored_witness :
  ∃ t r,
    resolve (clear_overrides
               (Sample.with_settings (Some "/cfg/fw.map"%string)
                  (Some "/cfg/fw.elf"%string) None ["/cfg/fw.elf"%string]
                  (Sample.host Sample.one_target))) = Some (t, r) ∧
    resolve (Sample.with_settings (Some "/cfg/fw.map"%string)
               (Some "/cfg/fw.elf"%string) None ["/cfg/fw.elf"%string]
               (Sample.host Sample.one_target))
    = Some (EvAccess "/cfg/fw.map" :: t, r).
Proof.
  destruct (unusable_overrides_ignored
              (Sample.with_settings (Some "/cfg/fw.map"%string)
                 (Some "/cfg/fw.elf"%string) None ["/cfg/fw.elf"%string]
                 (Sample.host Sample.one_target)) eq_refl)
    as (t0 & t & r & Hcp & _ & _ & Hclear & Hres).
  vm_compute in Hcp. injection Hcp as <-.
  exists t, r. split; [exact Hclear | exact Hres].
Defined.

(** X4. The toolchain is looked at last and only when [resolve]
    succeeds: a run that throws has shown no notification, and in a run
    that succeeds everything before the call of [getToolchainPath] is
    free of notifications, the toolchain of the result is what that call
    returned, and at most one notification is shown in all. *)
Theorem notifications_follow_success env t r :
  resolve env = Some (t, r) →
  match r with
  | Throw _ => notifications t = []
  | Ok paths =>
    ∃ t1 t2, t = t1 ++ t2 ∧ notifications t1 = [] ∧
      getToolchainPath env = (t2, Ok (toolchainPath paths)) ∧
      List.length (notifications t) ≤ 1
  end.
Proof.
  intros Hres%resolve_trace. destruct r as [paths|e]; [|done].
  destruct Hres as (t1 & t2 & -> & Hn & Htc).
  exists t1, t2. split_and!; [done..|].
  rewrite notifications_app, Hn. simpl.
  by eapply getToolchainPath_notifies.
Qed.

Lemma notifications_follow_success_witness :
  ∃ t, resolve (Sample.with_settings None None (Some "/opt/gcc"%string) []
                  Sample.cancelling)
       = Some (t, Throw SelectionCancelled) ∧
    notifications t = [].
Proof.
  eexists. split; [vm_compute; reflexivity|].
  apply (notifications_follow_success
           (Sample.with_settings None None (Some "/opt/gcc"%string) []
              Sample.cancelling) _ (Throw SelectionCancelled)).
  vm_compute. reflexivity.
Defined.

Lemma elem_of_candidates env st c :
  c ∈ candidates env st →
  ∃ folder, folder ∈ found st ∧ c ∈ paired_by_name env folder.
Proof.
  unfold candidates. induction (found st) as [|f l IH].
  { by intros ?%elem_of_nil. }
  rewrite fmap_cons. cbn [List.concat].
  intros [Hc|Hc]%elem_of_app.
  - exists f. split; [by left|done].
  - destruct (IH Hc) as (folder & ? & ?). exists folder. split; [by right|done].
Qed.

(** X5. Outside the fast path, when the prompt only ever returns one of
    the items it was given, the two paths of a successful [resolve]
    lie in one recorded folder and share their stem: they are
    [path.join] of that folder with two names [s.elf] and [s.map] of its
    listing. *)
Theorem resolved_pair_colocated env root rest t paths :
  fast_path env = false →
  workspaceFolders env = Some (root :: rest) →
  (∀ items pick, quickPick env items = Some pick → pick ∈ items) →
  resolve env = Some (t, Ok paths) →
  ∃ st folder entries s,
    findBuildFolders env root = Some st ∧
    folder ∈ found st ∧
    fs_dirs env !! folder = Some entries ∧
    (s ++ ".elf")%string ∈ name <$> entries ∧
    (s ++ ".map")%string ∈ name <$> entries ∧
    elf paths = path_join env folder (s ++ ".elf")%string ∧
    map paths = path_join env folder (s ++ ".map")%string.
Proof.
  intros Hfast Hws Hpick Hres.
  destruct (resolve_search_outcome env root rest Hfast Hws)
    as (st & t1 & r & Hst & Hres1 & Hout).
  rewrite Hres in Hres1. simplify_eq.
  assert (∃ c, c ∈ candidates env st ∧
               map paths = item_map c ∧ elf paths = item_elf c)
    as (c & Hc & Hm & He).
  { unfold search_outcome in Hout. destruct (found st); [by destruct Hout|].
    destruct (candidates env st) as [|c [|c2 items]] eqn:Hcands.
    - by destruct Hout.
    - destruct Hout as (_ & ? & ? & _ & ?). simplify_eq.
      exists c. split; [by left|done].
    - destruct Hout as [_ Hout].
      destruct (quickPick env _) as [pick|] eqn:Hq; [|done].
      destruct Hout as (? & ? & _ & ?). simplify_eq.
      exists pick. split; [by eapply Hpick|done]. }
  apply elem_of_candidates in Hc as (folder & Hf & Hc).
  apply elem_of_paired_by_name in Hc as (entries & s & Hdir & Hse & Hsm & ->).
  exists st, folder, entries, s. by split_and!.
Qed.

Lemma resolved_pair_colocated_witness :
  ∃ st folder entries s,
    findBuildFolders (Sample.host Sample.one_target) "/w" = Some st ∧
    folder ∈ found st ∧
    fs_dirs (Sample.host Sample.one_target) !! folder = Some entries ∧
    (s ++ ".elf")%string ∈ name <$> entries ∧
    (s ++ ".map")%string ∈ name <$> entries ∧
    "/w/out/app.elf"%string = Sample.posix_join folder (s ++ ".elf")%string ∧
    "/w/out/app.map"%string = Sample.posix_join folder (s ++ ".map")%string.
Proof.
  eapply (resolved_pair_colocated (Sample.host Sample.one_target) "/w" []
           _ {| map := "/w/out/app.map"; elf := "/w/out/app.elf";
                toolchainPath := None |}).
  - reflexivity.
  - reflexivity.
  - intros items pick Hq. simpl in Hq. discriminate.
  - vm_compute. reflexivity.
Defined.

(** ** Further properties of the walk *)

Lemma walk_entries_found_prefix env rec dir :
  (∀ d st st', rec d st = Some st' → ∃ extra, found st' = found st ++ extra) →
  ∀ entries st hasMap hasElf st' hasMap' hasElf',
    walk_entries env rec dir entries (st, hasMap, hasElf)
      = Some (st', hasMap', hasElf') →
    ∃ extra, found st' = found st ++ extra.
Proof.
  intros Hrec. induction entries as [|d rest IH];
    intros st hasMap hasElf st' hasMap' hasElf' H; simpl in H.
  { simplify_eq. exists []. by rewrite app_nil_r. }
  destruct (isDirectory d).
  - destruct (rec _ st) as [st1|] eqn:Hr; [|done].
    apply Hrec in Hr as [x1 Hx1]. apply IH in H as [x2 Hx2].
    exists (x1 ++ x2). by rewrite Hx2, Hx1, app_assoc.
  - repeat case_match; by eapply IH.
Qed.

Lemma set_add_prefix x s : ∃ extra, Js.set_add x s = s ++ extra.
Proof.
  unfold Js.set_add. case_bool_decide; [exists []; by rewrite app_nil_r|].
  by exists [x].
Qed.

Lemma walk_found_prefix env fuel : ∀ dir st st',
  walk env fuel dir st = Some st' → ∃ extra, found st' = found st ++ extra.
Proof.
  induction fuel as [|fuel IH]; intros dir st st' H; [done|].
  simpl in H. case_bool_decide.
  { simplify_eq. exists []. by rewrite app_nil_r. }
  destruct (fs_dirs env !! dir) as [entries|].
  - destruct (walk_entries env _ _ _ _) as [[[st2 hm] he]|] eqn:Hloop; [|done].
    apply (walk_entries_found_prefix env _ _ IH) in Hloop as [x Hx].
    simpl in Hx. simplify_eq. destruct (hm && he); [|by exists x].
    simpl. destruct (set_add_prefix dir (found st2)) as [y Hy].
    exists (x ++ y). by rewrite Hy, Hx, app_assoc.
  - simplify_eq. exists []. by rewrite app_nil_r.
Qed.

(** X6. A walk only appends to the recorded folders, and it records
    its start, when the start qualifies, after everything it records
    below it: the folders come deepest first, which is the order in
    which [resolve] pairs them and takes its first candidate. *)
Theorem recorded_deepest_first env fuel start st st' :
  walk env fuel start st = Some st' →
  ∃ extra,
    found st' = found st ++ extra ∧
    (dir_key env start ∉ visited st → start ∉ found st →
     dir_qualifies env start = true →
     ∃ below, extra = below ++ [start]).
Proof.
  intros H. destruct (walk_found_prefix env fuel _ _ _ H) as [extra Hextra].
  exists extra. split; [done|]. intros Hvis Hnew Hq.
  destruct fuel as [|fuel]; [done|]. simpl in H.
  rewrite bool_decide_false in H by done.
  unfold dir_qualifies in Hq.
  destruct (fs_dirs env !! start) as [entries|]; [|done].
  destruct (walk_entries env _ _ _ _) as [[[st2 hm] he]|] eqn:Hloop; [|done].
  pose proof Hloop as Hpre.
  apply (walk_entries_found_prefix env _ _ (walk_found_prefix env fuel))
    in Hpre as [below Hbelow].
  apply (walk_entries_post env _ _ (walk_post env fuel)) in Hloop
    as (-> & -> & new & [_ _ Tf _ Td _] & _).
  simpl in *. unfold qualifies in Hq. rewrite Hq in H. simplify_eq.
  exists below. simpl in Hextra. unfold Js.set_add in Hextra.
  rewrite bool_decide_false in Hextra.
  - rewrite Hbelow, <- app_assoc in Hextra. by apply app_inv_head in Hextra.
  - intros [?|[Hin _]]%Td; [by apply Hnew|]. apply (Tf _ Hin). set_solver.
Qed.

Lemma recorded_deepest_first_witness :
  ∃ st',
    walk (Sample.host Sample.two_targets) 4 "/w/build" init_state = Some st' ∧
    found st' = ["/w/build/Debug"%string; "/w/build"%string].
Proof.
  destruct (recorded_deepest_first (Sample.host Sample.two_targets) 4
              "/w/build" init_state _ ltac:(vm_compute; reflexivity))
    as (extra & Hextra & Hlast).
  eexists. split; [vm_compute; reflexivity|].
  destruct Hlast as [below Hbelow].
  - vm_compute. set_solver.
  - vm_compute. apply not_elem_of_nil.
  - vm_compute. reflexivity.
  - reflexivity.
Defined.

Lemma walk_marks_start env fuel dir st st' :
  walk env fuel dir st = Some st' → dir_key env dir ∈ visited st'.
Proof.
  destruct fuel as [|fuel]; [done|]. simpl.
  case_bool_decide as Hv; [by intros [= <-]|].
  destruct (fs_dirs env !! dir) as [entries|].
  - destruct (walk_entries env _ _ _ _) as [[[st2 hm] he]|] eqn:Hloop; [|done].
    apply (walk_entries_post env _ _ (walk_post env fuel)) in Hloop
      as (_ & _ & new & [_ Tv _ _ _ _] & _).
    intros [= <-]. simpl in Tv.
    assert (dir_key env dir ∈ visited st2) by (rewrite Tv; set_solver).
    by destruct (hm && he).
  - intros [= <-]. simpl. set_solver.
Qed.

(** X7. Walking again is a no-op: after a walk, a later walk of its
    start, or of any directory it listed, returns at once and leaves the
    two sets and the trace as they are. This is what keeps the fallback
    walk of the root from entering the conventional folders again. *)
Theorem walked_once env fuel start st st' :
  walk env fuel start st = Some st' →
  ∀ fuel' p,
    p = start ∨ (EvReaddir p ∈ io st' ∧ ¬ EvReaddir p ∈ io st) →
    walk env (S fuel') p st' = Some st'.
Proof.
  intros H fuel' p Hp.
  assert (dir_key env p ∈ visited st') as Hin.
  { destruct Hp as [->|[Hnow Hbefore]]; [by eapply walk_marks_start|].
    apply walk_post in H as (new & [Tio Tv _ _ _ _] & _).
    rewrite Tio, elem_of_app, list_elem_of_fmap in Hnow.
    destruct Hnow as [?|(q & [= ->] & Hq)]; [done|].
    rewrite Tv. apply elem_of_union_l, elem_of_list_to_set.
    by apply list_elem_of_fmap_2. }
  simpl. by rewrite bool_decide_true.
Qed.

Lemma walked_once_witness :
  ∃ st',
    walk (Sample.host Sample.two_targets) 4 "/w/build" init_state = Some st' ∧
    walk (Sample.host Sample.two_targets) 1 "/w/build/Debug" st' = Some st'.
Proof.
  eexists. split; [vm_compute; reflexivity|].
  apply (walked_once (Sample.host Sample.two_targets) 4 "/w/build" init_state).
  - vm_compute. reflexivity.
  - right. split.
    + apply elem_of_listed. vm_compute. apply list_elem_of_In. simpl. tauto.
    + simpl. apply not_elem_of_nil.
Defined.

(** ** The walk misses nothing where paths are compared as they are *)

Lemma walk_entries_closed env rec dir pending :
  (∀ d st st', rec d st = Some st' → closed_except env pending st →
     closed_except env pending st' ∧ visited st ⊆ visited st' ∧
     dir_key env d ∈ visited st') →
  ∀ entries st hasMap hasElf st' hasMap' hasElf',
    walk_entries env rec dir entries (st, hasMap, hasElf)
      = Some (st', hasMap', hasElf') →
    closed_except env pending st →
    closed_except env pending st' ∧ visited st ⊆ visited st' ∧
    ∀ e, e ∈ entries → isDirectory e = true →
      dir_key env (path_join env dir (name e)) ∈ visited st'.
Proof.
  intros Hrec. induction entries as [|d rest IH];
    intros st hasMap hasElf st' hasMap' hasElf' H Hc; simpl in H.
  { simplify_eq. split_and!; [done..|]. by intros e ?%elem_of_nil. }
  destruct (isDirectory d) eqn:Hd.
  - destruct (rec _ st) as [st1|] eqn:Hr; [|done].
    destruct (Hrec _ _ _ Hr Hc) as (Hc1 & Hs1 & Hk1).
    destruct (IH _ _ _ _ _ _ H Hc1) as (Hc2 & Hs2 & Hk2).
    split_and!; [done|set_solver|].
    intros e [->|He]%elem_of_cons Hde; [set_solver|by apply Hk2].
  - assert (∃ hm he, walk_entries env rec dir rest (st, hm, he)
                     = Some (st', hasMap', hasElf')) as (hm & he & H').
    { repeat case_match; eauto. }
    destruct (IH _ _ _ _ _ _ H' Hc) as (Hc2 & Hs2 & Hk2).
    split_and!; [done..|].
    intros e [->|He]%elem_of_cons Hde; [congruence|by apply Hk2].
Qed.

Lemma walk_closed env fuel :
  isCaseInsensitive env = false →
  ∀ dir st st' pending,
    walk env fuel dir st = Some st' → closed_except env pending st →
    closed_except env pending st' ∧ visited st ⊆ visited st' ∧
    dir_key env dir ∈ visited st'.
Proof.
  intros Hcs.
  assert (∀ p, dir_key env p = p) as Hkey
    by (intros p; unfold dir_key; by rewrite Hcs).
  induction fuel as [|fuel IH]; intros dir st st' pending H Hc; [done|].
  pose proof (walk_marks_start env _ _ _ _ H) as Hmark.
  pose proof H as Hmono. apply walk_post in Hmono as (new & Ht & _).
  apply trav_visited_mono in Ht.
  split_and!; [|done..].
  simpl in H. case_bool_decide as Hv; [by simplify_eq|].
  set (st1 := emit (EvReaddir dir) (mark_visited (dir_key env dir) st)) in *.
  destruct (fs_dirs env !! dir) as [entries|] eqn:Hdir.
  - destruct (walk_entries env _ _ _ _) as [[[st2 hm] he]|] eqn:Hloop; [|done].
    assert (visited st' = visited st2) as Hvis
      by (simplify_eq; by destruct (hm && he)).
    assert (closed_except env ({[dir_key env dir]} ∪ pending) st1) as Hc1.
    { intros d entries' e Hin Hpend Hd He Hde. simpl in *.
      assert (dir_key env d ∈ visited st) as Hin' by set_solver.
      apply elem_of_union_r. eapply Hc; [done| |done..]. set_solver. }
    eapply walk_entries_closed in Hloop as (Hc2 & Hs2 & Hk2);
      [|intros d0 s s' Hw Hcl; by eapply IH|done].
    intros d entries' e Hin Hpend Hd He Hde. rewrite Hvis in *.
    destruct (decide (dir_key env d = dir_key env dir)) as [Heq|Hne].
    + rewrite !Hkey in Heq. subst d. rewrite Hdir in Hd. simplify_eq.
      by apply Hk2.
    + eapply Hc2; [done| |done..]. set_solver.
  - simplify_eq. intros d entries' e Hin Hpend Hd He Hde. simpl in *.
    destruct (decide (dir_key env d = dir_key env dir)) as [Heq|Hne].
    + rewrite !Hkey in Heq. subst d. congruence.
    + apply elem_of_union_r. eapply Hc; [set_solver|done..].
Qed.

Lemma closed_reaches env st start :
  closed_except env ∅ st → dir_key env start ∈ visited st →
  ∀ p, reaches env start p → dir_key env p ∈ visited st.
Proof.
  intros Hc Hstart p Hp. induction Hp as [|d e entries _ IH Hd He Hde]; [done|].
  eapply Hc; [exact IH|set_solver|done..].
Qed.

Lemma walk_common_closed env fuel :
  isCaseInsensitive env = false →
  ∀ common st st',
    walk_common env fuel common st = Some st' →
    closed_except env ∅ st → closed_except env ∅ st'.
Proof.
  intros Hcs. induction common as [|c rest IH]; intros st st' H Hc; simpl in H.
  { by simplify_eq. }
  destruct (fs_existsSync env c).
  - destruct (walk env fuel c _) as [st1|] eqn:Hw; [|done].
    eapply IH; [done|]. by eapply (walk_closed env fuel Hcs).
  - by eapply IH.
Qed.

Lemma findBuildFolders_closed env root st :
  isCaseInsensitive env = false →
  findBuildFolders env root = Some st →
  closed_except env ∅ st ∧ (found st = [] → dir_key env root ∈ visited st).
Proof.
  intros Hcs. unfold findBuildFolders, findBuildFolders_state. intros H.
  destruct (walk_common env _ _ _) as [pass|] eqn:Hpass; [|done].
  apply (walk_common_closed env _ Hcs) in Hpass; [|by intros d ?? ?%elem_of_empty].
  destruct (found pass) as [|f l] eqn:Hfound; cbn [List.length Nat.eqb] in H.
  - destruct (walk_closed env _ Hcs _ _ _ ∅ H Hpass) as (? & _ & ?). done.
  - simplify_eq. split; [done|]. by rewrite Hfound.
Qed.

(** X8. On a platform whose paths are compared as they are (any but
    win32 and darwin), a walk that starts with empty sets lists exactly
    its start and the directories below it through real directories,
    each of them, and records exactly those of them whose own listing
    qualifies: nothing below the start is missed. *)
Theorem walk_reaches_everything env fuel start st' :
  isCaseInsensitive env = false →
  walk env fuel start init_state = Some st' →
  ∀ p,
    (EvReaddir p ∈ io st' ↔ reaches env start p) ∧
    (p ∈ found st' ↔ reaches env start p ∧ dir_qualifies env p = true).
Proof.
  intros Hcs H p.
  assert (∀ q, dir_key env q = q) as Hkey
    by (intros q; unfold dir_key; by rewrite Hcs).
  destruct (walk_closed env fuel Hcs _ _ _ ∅ H) as (Hc & _ & Hstart).
  { by intros d ?? ?%elem_of_empty. }
  apply walk_post in H as (new & [Tio Tv _ _ Td _] & Hr).
  rewrite Forall_forall in Hr. simpl in *.
  assert (p ∈ new ↔ reaches env start p) as Hnew.
  { split; [apply Hr|]. intros Hp.
    pose proof (closed_reaches env _ _ Hc Hstart p Hp) as Hin.
    rewrite Tv, Hkey in Hin.
    apply elem_of_union in Hin as [Hin|Hin]; [|by apply elem_of_empty in Hin].
    apply elem_of_list_to_set, list_elem_of_fmap in Hin as (q & Hq & Hin).
    rewrite Hkey in Hq. by subst q. }
  split.
  - rewrite Tio, <- Hnew, list_elem_of_fmap. split.
    + by intros (q & [= ->] & ?).
    + intros ?. by exists p.
  - rewrite Td, <- Hnew. split; [|by right].
    by intros [?%elem_of_nil|?].
Qed.

Lemma walk_reaches_everything_witness :
  ∃ st',
    walk (Sample.host Sample.two_targets) 4 "/w" init_state = Some st' ∧
    ("/w/build/Debug"%string ∈ found st' ↔
       reaches (Sample.host Sample.two_targets) "/w" "/w/build/Debug" ∧
       dir_qualifies (Sample.host Sample.two_targets) "/w/build/Debug" = true).
Proof.
  eexists. split; [vm_compute; reflexivity|].
  apply (walk_reaches_everything (Sample.host Sample.two_targets) 4 "/w").
  - reflexivity.
  - vm_compute. reflexivity.
Defined.

(** X9. On such a platform the error "No build folders containing
    both .map and .elf found" is never a miss of the heuristic: when
    [resolve] throws it, no directory below the workspace root, through
    real directories, holds both kinds of files. *)
Theorem no_build_folders_means_none env root rest t :
  isCaseInsensitive env = false →
  workspaceFolders env = Some (root :: rest) →
  resolve env = Some (t, Throw NoBuildFolders) →
  ∀ p, reaches env root p → dir_qualifies env p = false.
Proof.
  intros Hcs Hws Hres p Hp.
  assert (∀ q, dir_key env q = q) as Hkey
    by (intros q; unfold dir_key; by rewrite Hcs).
  destruct (fast_path env) eqn:Hfast.
  { destruct (resolve_fast env Hfast) as (? & ? & ? & ? & _ & _ & Hok).
    congruence. }
  destruct (resolve_search_outcome env root rest Hfast Hws)
    as (st & t1 & r & Hst & Hres1 & Hout).
  rewrite Hres in Hres1. simplify_eq.
  assert (found st = []) as Hnil.
  { unfold search_outcome in Hout. destruct (found st) as [|f l]; [done|].
    destruct (candidates env st) as [|c [|c2 items]].
    - by destruct Hout.
    - by destruct Hout as (_ & ? & ? & _ & ?).
    - destruct Hout as [_ Hout]. destruct (quickPick env _); [|done].
      by destruct Hout as (? & ? & _ & ?). }
  destruct (findBuildFolders_closed env root st Hcs Hst) as [Hc Hroot].
  pose proof (closed_reaches env _ _ Hc (Hroot Hnil) p Hp) as Hin.
  pose proof (findBuildFolders_scanned env _ _ _ Hst) as Hsc.
  rewrite (sc_visited _ _ _ Hsc), Hkey in Hin.
  apply elem_of_list_to_set, list_elem_of_fmap in Hin as (q & Hq & Hin).
  rewrite Hkey in Hq. subst q.
  destruct (dir_qualifies env p) eqn:Hqual; [|done].
  assert (p ∈ found st) as Hf by (by apply (sc_found _ _ _ Hsc)).
  rewrite Hnil in Hf. by apply elem_of_nil in Hf.
Qed.

Lemma no_build_folders_means_none_witness :
  dir_qualifies (Sample.host Sample.sources_only) "/w/src" = false.
Proof.
  eapply (no_build_folders_means_none (Sample.host Sample.sources_only)
            "/w" [] _ eq_refl eq_refl).
  - vm_compute. reflexivity.
  - change (reaches (Sample.host Sample.sources_only) "/w"
              (path_join (Sample.host Sample.sources_only) "/w"
                 (name (Sample.dir "src")))).
    eapply reaches_step.
    + constructor.
    + vm_compute. reflexivity.
    + apply list_elem_of_In. simpl. tauto.
    + reflexivity.
Defined.

(** ** Pairing when a folder has gone *)

(** X10. The pairing reads the folders outside any [try]: if one of
    them cannot be listed (it went away after the walk), the collection
    stops there and throws the error of that listing, having listed the
    folders up to it and none after it, and the items gathered so far
    are lost. *)
Theorem pairing_stops_at_missing_folder env before missing after items :
  (∀ f, f ∈ before → is_Some (fs_dirs env !! f)) →
  fs_dirs env !! missing = None →
  collect_items env (before ++ missing :: after) items
  = (EvReaddir <$> (before ++ [missing]), Throw (ReaddirFailed missing)).
Proof.
  intros Hok Hmiss. revert items.
  induction before as [|f rest IH]; intros items; simpl.
  - unfold readdirSync. rewrite Hmiss. done.
  - destruct (Hok f) as [entries Hf]; [by left|].
    unfold readdirSync at 1. rewrite Hf. unfold bind at 1 2, tell, ret.
    simpl. rewrite IH by (intros f' Hf'; apply Hok; by right). done.
Qed.

Lemma pairing_stops_at_missing_folder_witness :
  collect_items (Sample.host Sample.one_target)
    ["/w/out"%string; "/w/gone"%string; "/w"%string] []
  = ([EvReaddir "/w/out"; EvReaddir "/w/gone"],
     Throw (ReaddirFailed "/w/gone")).
Proof.
  apply (pairing_stops_at_missing_folder (Sample.host Sample.one_target)
           ["/w/out"%string] "/w/gone" ["/w"%string] []).
  - intros f Hf. apply list_elem_of_singleton in Hf. subst f.
    vm_compute. eauto.
  - vm_compute. reflexivity.
Defined.

(** ** [findFile] *)

Lemma insert_sorted_perm cmp x l : insert_sorted cmp x l ≡ₚ x :: l.
Proof.
  induction l as [|y l IH]; simpl; [done|].
  destruct (cmp x y <=? 0)%Z; [done|]. rewrite IH. apply Permutation_swap.
Qed.

Lemma insertion_sort_perm cmp l : insertion_sort cmp l ≡ₚ l.
Proof.
  induction l as [|x l IH]; simpl; [done|].
  by rewrite insert_sorted_perm, IH.
Qed.

Lemma insertion_sort_equal cmp l :
  (∀ a b, a ∈ l → b ∈ l → cmp a b = 0%Z) → insertion_sort cmp l = l.
Proof.
  induction l as [|x l IH]; intros Heq; simpl; [done|].
  rewrite IH by (intros a b Ha Hb; apply Heq; by right).
  destruct l as [|y l']; simpl; [done|].
  rewrite Heq; [done|by left|right; by left].
Qed.

Lemma readdirSync_cases env folder :
  readdirSync env folder
  = match fs_dirs env !! folder with
    | Some entries => ([EvReaddir folder], Ok (name <$> entries))
    | None => ([EvReaddir folder], Throw (ReaddirFailed folder))
    end.
Proof.
  unfold readdirSync, bind, tell, ret, throw.
  by destruct (fs_dirs env !! folder).
Qed.

(** X11. What [findFile] returns is a usable file of the folder: the
    path is [path.join] of the folder with a name of its listing that
    ends with the extension, the file passed the read probe, and for
    the extension [.map] its size is known and not zero. Only this one
    file was probed. (Whatever the order the host's sort produces, as
    long as it keeps the elements.) *)
Theorem findFile_returns_usable_file env sort statSize folder ext t p :
  (∀ l, sort release_first l ≡ₚ l) →
  findFile env sort statSize folder ext = (t, Ok (Some p)) →
  ∃ entries f,
    fs_dirs env !! folder = Some entries ∧
    f ∈ name <$> entries ∧ Js.endsWith f ext = true ∧
    p = path_join env folder f ∧
    fs_readable env p = true ∧
    (ext = ".map"%string → ∃ size, statSize p = Some size ∧ size ≠ 0%N) ∧
    t = [EvReaddir folder; EvAccess p].
Proof.
  intros Hperm. unfold findFile. rewrite readdirSync_cases.
  destruct (fs_dirs env !! folder) as [entries|]; [|done].
  unfold bind at 1.
  set (files := List.filter (fun f => Js.endsWith f ext) (name <$> entries)).
  destruct (List.length files =? 0); [done|].
  destruct (sort release_first files) as [|first rest] eqn:Hsort; [done|].
  assert (first ∈ files) as Hin.
  { rewrite <- (Hperm files), Hsort. by left. }
  apply elem_of_filter_bool in Hin as [Hin Hext].
  unfold bind, tell, ret.
  destruct (fs_readable env (path_join env folder first)) eqn:Hread; [|done].
  destruct (String.eqb ext ".map") eqn:Hmap.
  - destruct (statSize _) as [size|] eqn:Hsize; [|done].
    destruct (size =? 0)%N eqn:Hzero; [done|].
    intros [= <- <-]. exists entries, first. split_and!; try done.
    intros _. exists size. split; [done|]. by apply N.eqb_neq.
  - intros [= <- <-]. exists entries, first. split_and!; try done.
    intros ->. by rewrite String.eqb_refl in Hmap.
Qed.

Lemma findFile_returns_usable_file_witness :
  ∃ entries f,
    fs_dirs (Sample.with_settings None None None ["/w/out/app.map"%string]
               (Sample.host Sample.one_target)) !! "/w/out"%string
    = Some entries ∧
    f ∈ name <$> entries ∧ Js.endsWith f ".map" = true ∧
    "/w/out/app.map"%string = Sample.posix_join "/w/out" f ∧
    bool_decide ("/w/out/app.map"%string ∈ ["/w/out/app.map"%string]) = true ∧
    (".map"%string = ".map"%string →
     ∃ size, Some 512%N = Some size ∧ size ≠ 0%N) ∧
    [EvReaddir "/w/out"; EvAccess "/w/out/app.map"]
    = [EvReaddir "/w/out"; EvAccess "/w/out/app.map"].
Proof.
  apply (findFile_returns_usable_file
           (Sample.with_settings None None None ["/w/out/app.map"%string]
              (Sample.host Sample.one_target))
           insertion_sort (fun _ => Some 512%N) "/w/out" ".map"
           [EvReaddir "/w/out"; EvAccess "/w/out/app.map"]
           "/w/out/app.map").
  - intros l. apply insertion_sort_perm.
  - vm_compute. reflexivity.
Defined.

(** X12. The edges of [findFile]: a folder that cannot be listed makes
    it throw (the listing is read before the [try]); in a folder that
    can be listed it never throws, and when no name ends with the
    extension it returns undefined without probing any file. *)
Theorem findFile_edges env sort statSize folder ext :
  (fs_dirs env !! folder = None →
   findFile env sort statSize folder ext
   = ([EvReaddir folder], Throw (ReaddirFailed folder))) ∧
  (∀ entries, fs_dirs env !! folder = Some entries →
     (∃ t r, findFile env sort statSize folder ext = (t, Ok r)) ∧
     ((∀ f, f ∈ name <$> entries → Js.endsWith f ext = false) →
      findFile env sort statSize folder ext = ([EvReaddir folder], Ok None))).
Proof.
  unfold findFile. rewrite readdirSync_cases. split.
  - by intros ->.
  - intros entries ->. unfold bind at 1 3.
    set (files := List.filter (fun f => Js.endsWith f ext) (name <$> entries)).
    split.
    + destruct (List.length files =? 0); [by eexists _, _|].
      destruct (sort release_first files) as [|first rest]; [by eexists _, _|].
      unfold bind, tell, ret.
      destruct (fs_readable env _); [|by eexists _, _].
      destruct (String.eqb ext ".map"); [|by eexists _, _].
      destruct (statSize _) as [size|]; [|by eexists _, _].
      destruct (size =? 0)%N; by eexists _, _.
    + intros Hnone. assert (files = []) as ->; [|done].
      unfold files. induction (name <$> entries) as [|f l IH]; [done|].
      simpl. rewrite Hnone by (by left). apply IH.
      intros f' Hf'. apply Hnone. by right.
Qed.

(** X13. [findFile] tries one file only. When none of the names
    with the extension contains Release or Debug (the comparator is
    then 0 on all of them and a stable sort keeps their order), it
    probes the first of them in the order of the listing and returns it
    if it is usable, and undefined if not: a later file is never tried,
    even when the first one is unreadable or an empty map. *)
Theorem findFile_tries_first_only env sort statSize folder ext entries
    first others :
  (∀ l, (∀ a b, a ∈ l → b ∈ l → release_first a b = 0%Z) →
        sort release_first l = l) →
  fs_dirs env !! folder = Some entries →
  List.filter (fun f => Js.endsWith f ext) (name <$> entries)
    = first :: others →
  (∀ f, f ∈ first :: others →
        includes "Release" f = false ∧ includes "Debug" f = false) →
  findFile env sort statSize folder ext
  = ([EvReaddir folder; EvAccess (path_join env folder first)],
     Ok (if fs_readable env (path_join env folder first)
            && (negb (String.eqb ext ".map")
                || match statSize (path_join env folder first) with
                   | Some size => negb (size =? 0)%N
                   | None => false
                   end)
         then Some (path_join env folder first) else None)).
Proof.
  intros Hstable Hdir Hfiles Hplain.
  unfold findFile. rewrite readdirSync_cases, Hdir. unfold bind at 1.
  rewrite Hfiles. cbn [List.length Nat.eqb].
  rewrite Hstable; last first.
  { intros a b Ha Hb. unfold release_first.
    destruct (Hplain a Ha) as [-> ->], (Hplain b Hb) as [-> ->]. done. }
  unfold bind, tell, ret.
  destruct (fs_readable env _); [|done]. simpl.
  destruct (String.eqb ext ".map"); [|done]. simpl.
  destruct (statSize _) as [size|]; [|done].
  by destruct (size =? 0)%N.
Qed.

Lemma findFile_tries_first_only_witness :
  findFile (Sample.with_settings None None None ["/w/out/other.map"%string]
              (Sample.host Sample.one_target))
    insertion_sort (fun _ => Some 512%N) "/w/out" ".map"
  = ([EvReaddir "/w/out"; EvAccess "/w/out/app.map"], Ok None).
Proof.
  apply (findFile_tries_first_only
           (Sample.with_settings None None None ["/w/out/other.map"%string]
              (Sample.host Sample.one_target))
           insertion_sort (fun _ => Some 512%N) "/w/out" ".map"
           [Sample.file "app.elf"; Sample.file "app.map";
            Sample.file "other.map"]
           "app.map" ["other.map"%string]).
  - intros l Hl. by apply insertion_sort_equal.
  - vm_compute. reflexivity.
  - vm_compute. reflexivity.
  - intros f Hf. apply list_elem_of_In in Hf. simpl in Hf.
    destruct Hf as [<-|[<-|[]]]; split; reflexivity.
Defined.

(** ** A match in a conventional folder hides the rest *)

Lemma walk_common_visits env fuel : ∀ common st st',
  walk_common env fuel common st = Some st' →
  visited st ⊆ visited st' ∧
  ∀ c, c ∈ common → fs_existsSync env c = true →
    dir_key env c ∈ visited st'.
Proof.
  induction common as [|c rest IH]; intros st st' H; simpl in H.
  { simplify_eq. split; [done|]. by intros c ?%elem_of_nil. }
  destruct (fs_existsSync env c) eqn:Hex.
  - destruct (walk env fuel c _) as [st1|] eqn:Hw; [|done].
    destruct (IH _ _ H) as [Hsub Hin].
    pose proof (walk_marks_start env _ _ _ _ Hw) as Hc.
    apply walk_post in Hw as (new & Ht & _).
    apply trav_visited_mono in Ht. simpl in Ht.
    split; [set_solver|].
    intros c' [->|Hc']%elem_of_cons Hex'; [set_solver|by apply Hin].
  - destruct (IH _ _ H) as [Hsub Hin]. simpl in Hsub.
    split; [done|].
    intros c' [->|Hc']%elem_of_cons Hex'; [congruence|by apply Hin].
Qed.

(** X14. The prioritized pass shadows the rest of the workspace. On
    a platform whose paths are compared as they are, as soon as one of
    the six conventional subdirectories exists and holds a qualifying
    directory (itself or below it), [findBuildFolders] lists and records
    nothing but what lies in the six: a build folder elsewhere in the
    workspace is not reported. *)
Theorem prioritized_match_shadows_workspace env root st c d :
  isCaseInsensitive env = false →
  findBuildFolders env root = Some st →
  c ∈ common_dirs env root → fs_existsSync env c = true →
  reaches env c d → dir_qualifies env d = true →
  d ∈ found st ∧
  ∀ p, EvReaddir p ∈ io st ∨ p ∈ found st →
    ∃ c', c' ∈ common_dirs env root ∧ reaches env c' p.
Proof.
  intros Hcs Hst Hc Hex Hreach Hq.
  assert (∀ q, dir_key env q = q) as Hkey
    by (intros q; unfold dir_key; by rewrite Hcs).
  unfold findBuildFolders, findBuildFolders_state in Hst.
  destruct (walk_common env _ _ _) as [pass|] eqn:Hpass; [|done].
  assert (scanned env (common_dirs env root) pass) as Hsc.
  { eapply walk_common_scanned; [|apply scanned_init|exact Hpass]. done. }
  assert (d ∈ found pass) as Hd.
  { apply (sc_found _ _ _ Hsc). split; [|done].
    pose proof (walk_common_closed env _ Hcs _ _ _ Hpass) as Hclosed.
    destruct (walk_common_visits env _ _ _ _ Hpass) as [_ Hvis].
    pose proof (closed_reaches env pass c) as Hin.
    specialize (Hin (Hclosed ltac:(by intros ??? ?%elem_of_empty))
                    (Hvis c Hc Hex) d Hreach).
    rewrite (sc_visited _ _ _ Hsc), Hkey in Hin.
    apply elem_of_list_to_set, list_elem_of_fmap in Hin as (q & Hq' & Hin).
    rewrite Hkey in Hq'. by subst q. }
  destruct (found pass) as [|f l] eqn:Hfound; [by apply elem_of_nil in Hd|].
  cbn [List.length Nat.eqb] in Hst. simplify_eq. rewrite Hfound.
  split; [done|]. intros p Hp.
  pose proof (sc_reach _ _ _ Hsc) as Hr. rewrite Forall_forall in Hr.
  apply Hr. destruct Hp as [Hp|Hp]; [by apply elem_of_listed|].
  rewrite <- Hfound in Hp. by apply (sc_found _ _ _ Hsc) in Hp as [? _].
Qed.

Lemma prioritized_match_shadows_workspace_witness :
  ∃ st,
    findBuildFolders (Sample.host Sample.two_targets) "/w" = Some st ∧
    "/w/build/Debug"%string ∈ found st ∧
    ¬ EvReaddir "/w" ∈ io st ∧
    dir_qualifies (Sample.host Sample.two_targets) "/w" = true.
Proof.
  eexists. split; [vm_compute; reflexivity|].
  destruct (prioritized_match_shadows_workspace
              (Sample.host Sample.two_targets) "/w" _ "/w/build" "/w/build"
              eq_refl ltac:(vm_compute; reflexivity)) as [Hfound Honly].
  - apply list_elem_of_In. simpl. tauto.
  - reflexivity.
  - constructor.
  - reflexivity.
  - split; [|split; [|reflexivity]].
    + apply list_elem_of_In. simpl. tauto.
    + intros Hin%elem_of_listed. apply list_elem_of_In in Hin.
      simpl in Hin. destruct Hin as [Hin|[Hin|[]]]; discriminate.
Defined.

(** ** Pairing goes by names *)

(** X15. The pairing goes by the names of the listing, whatever the
    type of the entries. From directories that qualify the collection
    never throws and, folder by folder, it gives the candidates of
    [paired_by_name]. These are as many as the listing has names that
    end in [.elf] with the name of the same stem and [.map] next to
    them, and an item is among them exactly when it is made of two
    names [s.elf] and [s.map] of the listing, for one and the same stem
    [s] (compared as strings, so with the case). A name [s.elf] without
    [s.map] and a name [s.map] without [s.elf] give nothing. *)
Theorem stem_exact_pairing env folders :
  (∀ f, f ∈ folders → dir_qualifies env f = true) →
  collect_items env folders []
    = (EvReaddir <$> folders,
       Ok (List.concat (paired_by_name env <$> folders))) ∧
  ∀ f, f ∈ folders →
    ∃ entries, fs_dirs env !! f = Some entries ∧
      pair_files env f (name <$> entries) = paired_by_name env f ∧
      List.length (paired_by_name env f)
        = List.length (List.filter (is_paired (name <$> entries))
                         (name <$> entries)) ∧
      ∀ item, item ∈ paired_by_name env f ↔
        ∃ s, (s ++ ".elf")%string ∈ name <$> entries ∧
             (s ++ ".map")%string ∈ name <$> entries ∧
             item = {| label := ("$(file-binary) " ++ s)%string;
                       detail := asRelativePath env f;
                       item_elf := path_join env f (s ++ ".elf")%string;
                       item_map := path_join env f (s ++ ".map")%string |}.
Proof.
  intros Hq. split.
  - rewrite collect_items_spec; [done|].
    intros f Hf. by apply dir_qualifies_listable, Hq.
  - intros f Hf.
    destruct (dir_qualifies_listable env f (Hq f Hf)) as [entries Hdir].
    exists entries. split_and!; [done|..].
    + rewrite pair_files_spec. unfold paired_by_name. by rewrite Hdir.
    + unfold paired_by_name. rewrite Hdir. by rewrite length_fmap.
    + intros item. rewrite elem_of_paired_by_name. split.
      * intros (? & s & ? & ? & ? & ?). simplify_eq. by exists s.
      * intros (s & ? & ? & ?). by exists entries, s.
Qed.

Lemma stem_exact_pairing_witness :
  collect_items (Sample.host Sample.one_target) ["/w/out"%string] []
  = ([EvReaddir "/w/out"],
     Ok [ {| label := "$(file-binary) app"; detail := "/w/out";
             item_elf := "/w/out/app.elf";
             item_map := "/w/out/app.map" |} ]).
Proof.
  destruct (stem_exact_pairing (Sample.host Sample.one_target)
              ["/w/out"%string]) as [Hcollect _].
  - intros f Hf. apply list_elem_of_singleton in Hf. subst f.
    vm_compute. reflexivity.
  - rewrite Hcollect. vm_compute. reflexivity.
Defined.

(** X16. Outside the fast path and with a workspace, [resolve] throws
    "No build folders containing both .map and .elf found" exactly when
    the walk recorded no folder, that is when no directory it listed
    holds both kinds of files, and it throws "No matching .elf and .map
    files found" exactly when some folder was recorded and the listing
    of no recorded folder has two names [s.elf] and [s.map] of one
    stem, whatever the type of the two entries. *)
Theorem search_errors env root rest :
  fast_path env = false →
  workspaceFolders env = Some (root :: rest) →
  ∃ st t r,
    findBuildFolders env root = Some st ∧
    resolve env = Some (t, r) ∧
    (r = Throw NoBuildFolders ↔ found st = []) ∧
    (found st = [] ↔
       ∀ d, EvReaddir d ∈ io st → dir_qualifies env d = false) ∧
    (r = Throw NoMatchingFiles ↔
       found st ≠ [] ∧ ∀ d, d ∈ found st → ¬ has_name_pair env d).
Proof.
  intros Hfast Hws.
  destruct (resolve_search_outcome env root rest Hfast Hws)
    as (st & t & r & Hst & Hres & Hout).
  exists st, t, r. split_and!; [done..| | |].
  - unfold search_outcome in Hout. destruct (found st) as [|f l].
    { by destruct Hout as [-> _]. }
    split; [|done]. intros ->.
    destruct (candidates env st) as [|c [|c2 items]].
    + by destruct Hout.
    + by destruct Hout as (_ & ? & ? & _ & ?).
    + destruct Hout as [_ Hout]. destruct (quickPick env _); [|done].
      by destruct Hout as (? & ? & _ & ?).
  - pose proof (findBuildFolders_scanned env _ _ _ Hst) as Hsc.
    split.
    + intros Hnil d Hd%elem_of_listed.
      destruct (dir_qualifies env d) eqn:Hq; [|done].
      assert (d ∈ found st) as Hin by (by apply (sc_found _ _ _ Hsc)).
      rewrite Hnil in Hin. by apply elem_of_nil in Hin.
    + intros Hall. destruct (found st) as [|f l] eqn:Hfound; [done|].
      assert (f ∈ found st) as Hin by (rewrite Hfound; by left).
      apply (sc_found _ _ _ Hsc) in Hin as [Hl%elem_of_listed Hq].
      rewrite (Hall f Hl) in Hq. done.
  - rewrite <- candidates_empty. unfold search_outcome in Hout.
    destruct (found st) as [|f l] eqn:Hfound.
    { destruct Hout as [-> _]. split; [done|]. by intros [? _]. }
    destruct (candidates env st) as [|c [|c2 items]].
    + destruct Hout as [-> _]. done.
    + destruct Hout as (_ & ? & ? & _ & ->). split; [done|]. by intros [_ ?].
    + destruct Hout as [_ Hout]. split; [|by intros [_ ?]].
      intros ->. destruct (quickPick env _); [|done].
      by destruct Hout as (? & ? & _ & ?).
Qed.

Lemma search_errors_witness :
  (∃ t, resolve (Sample.host Sample.sources_only)
        = Some (t, Throw NoBuildFolders)) ∧
  (∃ t, resolve (Sample.host Sample.mismatched)
        = Some (t, Throw NoMatchingFiles)).
Proof.
  split.
  - destruct (search_errors (Sample.host Sample.sources_only) "/w" []
                eq_refl eq_refl) as (st & t & r & Hst & Hres & Hnone & _).
    vm_compute in Hst. injection Hst as <-.
    exists t. rewrite Hres. f_equal. f_equal. apply Hnone. reflexivity.
  - destruct (search_errors (Sample.host Sample.mismatched) "/w" []
                eq_refl eq_refl) as (st & t & r & Hst & Hres & _ & _ & Hpair).
    vm_compute in Hst. injection Hst as <-.
    exists t. rewrite Hres. f_equal. f_equal. apply Hpair.
    split; [discriminate|].
    intros d Hd Hp%paired_by_name_nonempty.
    apply list_elem_of_singleton in Hd. subst d.
    apply Hp. vm_compute. reflexivity.
Defined.

(** ** Where the pairing is the pairing of files *)

(** X17. As long as no directory of a folder is named like an
    artifact, that is with [.elf] or [.map] at the end of its name,
    [resolve] pairs the files of the folder: what the pairing loop
    makes of the listing is one candidate per binary file that has a
    map file of its stem in the folder, and nothing else. *)
Theorem pairing_of_files env f entries :
  fs_dirs env !! f = Some entries →
  artifacts_are_files entries →
  pair_files env f (name <$> entries) = spec_pair_files env f ∧
  (spec_pair_files env f ≠ [] ↔ has_file_pair env f) ∧
  ∀ item, item ∈ pair_files env f (name <$> entries) ↔
    ∃ s, (s ++ ".elf")%string ∈ file_names entries ∧
         (s ++ ".map")%string ∈ file_names entries ∧
         item = {| label := ("$(file-binary) " ++ s)%string;
                   detail := asRelativePath env f;
                   item_elf := path_join env f (s ++ ".elf")%string;
                   item_map := path_join env f (s ++ ".map")%string |}.
Proof.
  intros Hdir Hfiles.
  destruct (name_pair_file_pair env f entries Hdir Hfiles) as [Heq _].
  assert (pair_files env f (name <$> entries) = spec_pair_files env f)
    as Hpair.
  { rewrite pair_files_spec, <- Heq. unfold paired_by_name.
    by rewrite Hdir. }
  split_and!; [done|apply spec_pair_files_nonempty|].
  intros item. rewrite Hpair. unfold spec_pair_files. rewrite Hdir.
  rewrite list_elem_of_fmap. split.
  - intros (b & -> & [Hin [He Hm]%andb_true_iff]%elem_of_filter_bool).
    apply bool_decide_eq_true in Hm. exists (stem b).
    unfold candidate, stem in *.
    rewrite <- (endsWith_basename b ".elf") by done. done.
  - intros (s & He & Hm & ->). exists (s ++ ".elf")%string.
    unfold candidate, stem. rewrite basename_append. split; [done|].
    apply elem_of_filter_bool. split; [done|]. unfold is_paired, stem.
    rewrite endsWith_append, basename_append. by rewrite bool_decide_true.
Qed.

Lemma pairing_of_files_witness :
  pair_files (Sample.host Sample.one_target) "/w/out"
    ["app.elf"%string; "app.map"%string; "other.map"%string]
  = [ {| label := "$(file-binary) app"; detail := "/w/out";
         item_elf := "/w/out/app.elf";
         item_map := "/w/out/app.map" |} ].
Proof.
  destruct (pairing_of_files (Sample.host Sample.one_target) "/w/out"
              [Sample.file "app.elf"; Sample.file "app.map";
               Sample.file "other.map"]) as [Hpair _].
  - vm_compute. reflexivity.
  - intros e He Hd. apply list_elem_of_In in He. simpl in He.
    destruct He as [<-|[<-|[<-|[]]]]; discriminate Hd.
  - etransitivity; [exact Hpair|]. vm_compute. reflexivity.
Defined.

(** X18. Outside the fast path and with a workspace, when no directory
    of a recorded folder is named like an artifact, [resolve] throws
    "No matching .elf and .map files found" exactly when some folder
    was recorded and no recorded folder holds a binary file and a map
    file of one stem. *)
Theorem no_matching_files_error env root rest :
  fast_path env = false →
  workspaceFolders env = Some (root :: rest) →
  ∃ st t r,
    findBuildFolders env root = Some st ∧
    resolve env = Some (t, r) ∧
    ((∀ d entries, d ∈ found st → fs_dirs env !! d = Some entries →
        artifacts_are_files entries) →
     (r = Throw NoMatchingFiles ↔
        found st ≠ [] ∧ ∀ d, d ∈ found st → ¬ has_file_pair env d)).
Proof.
  intros Hfast Hws.
  destruct (resolve_search_outcome env root rest Hfast Hws)
    as (st & t & r & Hst & Hres & Hout).
  exists st, t, r. split_and!; [done..|]. intros Hfiles.
  rewrite (search_outcome_no_matching env st t r Hout).
  assert (∀ d, d ∈ found st → (has_name_pair env d ↔ has_file_pair env d))
    as Hsame.
  { intros d Hd.
    destruct (dir_qualifies_listable env d) as [entries Hdir].
    { by eapply found_qualifies. }
    by apply (name_pair_file_pair env d entries Hdir), (Hfiles d). }
  split; intros [Hne Hnone]; (split; [done|]); intros d Hd Hp;
    apply (Hnone d Hd); by apply (Hsame d Hd).
Qed.

Lemma no_matching_files_error_witness :
  ∃ t, resolve (Sample.host Sample.mismatched)
       = Some (t, Throw NoMatchingFiles).
Proof.
  destruct (no_matching_files_error (Sample.host Sample.mismatched) "/w" []
              eq_refl eq_refl) as (st & t & r & Hst & Hres & Hiff).
  vm_compute in Hst. injection Hst as <-.
  exists t. rewrite Hres. f_equal. f_equal. apply Hiff.
  - intros d entries Hd%list_elem_of_singleton Hdir. subst d.
    vm_compute in Hdir. injection Hdir as <-.
    intros e He Hdr. apply list_elem_of_In in He. simpl in He.
    destruct He as [<-|[<-|[]]]; discriminate Hdr.
  - split; [discriminate|].
    intros d Hd%list_elem_of_singleton Hp%spec_pair_files_nonempty.
    subst d. apply Hp. vm_compute. reflexivity.
Defined.
